(** * Blossom server discovery: a shallow embedding of
      [fetch-blossom-servers.js] and the properties of its parser, relay
      client, batching loop, merge step and relay selection. *)

From Stdlib Require Import String Ascii List ZArith Bool Arith Lia.
From Stdlib Require Import Permutation Sorting.Sorted DecimalString.
Import ListNotations.
Open Scope string_scope.
Open Scope list_scope.
Set Warnings "-register-all".

(** ** JavaScript values and completions

    The script handles data decoded by [JSON.parse], so the values are the
    JSON ones plus [undefined].  Numbers are modelled by integers: the only
    numbers the protocol carries are event kinds and [created_at] seconds,
    and the parser never computes with a number. *)
Module JS.

Inductive JSValue : Type :=
| JUndefined
| JNull
| JBool (b : bool)
| JNum (z : Z)
| JStr (s : string)
| JArr (elems : list JSValue)
| JObj (props : list (string * JSValue)).

(** An evaluation either returns normally or throws. *)
Inductive Completion (A : Type) : Type :=
| Normal (a : A)
| Throw (err : string).
Arguments Normal {A} a.
Arguments Throw {A} err.

Definition bind {A B} (c : Completion A) (k : A -> Completion B) : Completion B :=
  match c with
  | Normal a => k a
  | Throw e => Throw e
  end.

(** [try { c } catch (err) { h err }] *)
Definition try_catch {A} (c : Completion A) (h : string -> Completion A) : Completion A :=
  match c with
  | Normal a => Normal a
  | Throw e => h e
  end.

Definition TypeError : string := "TypeError".

(** [!!v] *)
Definition truthy (v : JSValue) : bool :=
  match v with
  | JUndefined | JNull => false
  | JBool b => b
  | JNum z => negb (z =? 0)%Z
  | JStr s => negb (s =? "")
  | JArr _ | JObj _ => true
  end.

(** [v === s] for a string literal [s] *)
Definition strict_eq_str (v : JSValue) (s : string) : bool :=
  match v with
  | JStr s' => (s' =? s)
  | _ => false
  end.

(** Own property of an object decoded from JSON. *)
Definition lookup_prop (k : string) (props : list (string * JSValue)) : JSValue :=
  match find (fun p => fst p =? k) props with
  | Some p => snd p
  | None => JUndefined
  end.

Definition index_key (i : nat) : string := NilEmpty.string_of_uint (Nat.to_uint i).

(** [v[i]] for a literal index [i]: reading a property of [undefined] or
    [null] throws; an array gives its element, a string its character, an
    object its property named by the index, anything else [undefined]. *)
Definition get_index (v : JSValue) (i : nat) : Completion JSValue :=
  match v with
  | JUndefined | JNull => Throw TypeError
  | JBool _ | JNum _ => Normal JUndefined
  | JStr s =>
      Normal (match String.get i s with
              | Some c => JStr (String c EmptyString)
              | None => JUndefined
              end)
  | JArr elems => Normal (nth i elems JUndefined)
  | JObj props => Normal (lookup_prop (index_key i) props)
  end.

(** [v.k] for the property names the script reads ([tags], [pubkey],
    [created_at], [id]), none of which is inherited from a prototype. *)
Definition get_field (v : JSValue) (k : string) : Completion JSValue :=
  match v with
  | JUndefined | JNull => Throw TypeError
  | JObj props => Normal (lookup_prop k props)
  | JBool _ | JNum _ | JStr _ | JArr _ => Normal JUndefined
  end.

(** [Array.prototype.find]: the first element the callback accepts, else
    [undefined]; a throwing callback aborts the search. *)
Fixpoint find_elem (p : JSValue -> Completion bool) (l : list JSValue) : Completion JSValue :=
  match l with
  | [] => Normal JUndefined
  | x :: l' =>
      bind (p x) (fun b => if b then Normal x else find_elem p l')
  end.

(** [v.find(p)]: only arrays have a [find] method among JSON values. *)
Definition call_find (v : JSValue) (p : JSValue -> Completion bool) : Completion JSValue :=
  match v with
  | JArr elems => find_elem p elems
  | _ => Throw TypeError
  end.

(** [v.startsWith(p)]: only strings have the method. *)
Definition call_startsWith (v : JSValue) (p : string) : Completion bool :=
  match v with
  | JStr s => Normal (String.prefix p s)
  | _ => Throw TypeError
  end.

(** [v.filter(p)] for a callback that does not throw. *)
Definition call_filter (v : JSValue) (p : JSValue -> bool) : Completion (list JSValue) :=
  match v with
  | JArr elems => Normal (filter p elems)
  | _ => Throw TypeError
  end.

End JS.

Import JS.

Declare Scope js_scope.
Notation "x <- c ;; k" := (bind c (fun x => k))
  (at level 61, c at next level, right associativity) : js_scope.
Open Scope js_scope.

(** ** Event parser: [parseBlossomServer] *)
Module Parser.

(** The callback [tag => tag[0] === marker]. *)
Definition tag_is (marker : string) (tag : JSValue) : Completion bool :=
  t0 <- get_index tag 0 ;;
  Normal (strict_eq_str t0 marker).

(** The body of the [try] block. *)
Definition parseBlossomServer_try (event : JSValue) : Completion JSValue :=
  tags <- get_field event "tags" ;;
  dTag <- call_find tags (tag_is "d") ;;
  if negb (truthy dTag) then Normal JNull else
  d1 <- get_index dTag 1 ;;
  if negb (truthy d1) then Normal JNull else
  serverUrl <- get_index dTag 1 ;;
  https <- call_startsWith serverUrl "https://" ;;
  if negb https then Normal JNull else
  tagsN <- get_field event "tags" ;;
  nameTag <- call_find tagsN (tag_is "name") ;;
  tagsD <- get_field event "tags" ;;
  descTag <- call_find tagsD (tag_is "description") ;;
  name <- (if truthy nameTag then get_index nameTag 1 else Normal JNull) ;;
  description <- (if truthy descTag then get_index descTag 1 else Normal JNull) ;;
  pubkey <- get_field event "pubkey" ;;
  created_at <- get_field event "created_at" ;;
  id <- get_field event "id" ;;
  Normal (JObj [("url", serverUrl);
                ("name", name);
                ("description", description);
                ("pubkey", pubkey);
                ("created_at", created_at);
                ("event_id", id)]).

(** [try { ... } catch (err) { console.error(...); return null; }] *)
Definition parseBlossomServer (event : JSValue) : Completion JSValue :=
  try_catch (parseBlossomServer_try event) (fun _ => Normal JNull).

End Parser.

(** ** Relay client: [queryRelay]

    One connection is a promise, the array [servers], the timer and the
    socket, driven by the callbacks the socket and the timer fire.  A
    settled promise ignores every later [resolve] and [reject]. *)
Module RelayClient.

Inductive Settlement : Type :=
| Resolved                      (* [resolve(servers)]: the array itself *)
| Rejected (reason : string).   (* [reject(new Error(...))] *)

Record Client : Type := mkClient {
  servers : list JSValue;            (* [const servers = []] *)
  settlement : option Settlement;    (* [None] while the promise is pending *)
  timerArmed : bool;                 (* [timeoutId] set and not yet cleared or fired *)
  closeCalls : nat;                  (* calls of [ws.close()] *)
  sent : list JSValue                (* frames passed to [ws.send] *)
}.

Definition initial : Client :=
  {| servers := []; settlement := None; timerArmed := true; closeCalls := 0; sent := [] |}.

(** Callbacks run on the client state and may throw. *)
Definition Handler (A : Type) : Type := Client -> Completion A * Client.

Definition ret {A} (a : A) : Handler A := fun c => (Normal a, c).

Definition hbind {A B} (h : Handler A) (k : A -> Handler B) : Handler B :=
  fun c =>
    match h c with
    | (Normal a, c') => k a c'
    | (Throw e, c') => (Throw e, c')
    end.

Definition lift {A} (x : Completion A) : Handler A := fun c => (x, c).

Definition htry {A} (h : Handler A) (handler : string -> Handler A) : Handler A :=
  fun c =>
    match h c with
    | (Normal a, c') => (Normal a, c')
    | (Throw e, c') => handler e c'
    end.

Notation "x <~ h ;; k" := (hbind h (fun x => k))
  (at level 61, h at next level, right associativity).
Notation "h1 ;;; h2" := (hbind h1 (fun _ => h2))
  (at level 61, right associativity).

Definition push (server : JSValue) : Handler unit :=
  fun c => (Normal tt, {| servers := servers c ++ [server]; settlement := settlement c;
                          timerArmed := timerArmed c; closeCalls := closeCalls c;
                          sent := sent c |}).

Definition clearTimeout : Handler unit :=
  fun c => (Normal tt, {| servers := servers c; settlement := settlement c;
                          timerArmed := false; closeCalls := closeCalls c;
                          sent := sent c |}).

Definition ws_close : Handler unit :=
  fun c => (Normal tt, {| servers := servers c; settlement := settlement c;
                          timerArmed := timerArmed c; closeCalls := S (closeCalls c);
                          sent := sent c |}).

Definition ws_send (frame : JSValue) : Handler unit :=
  fun c => (Normal tt, {| servers := servers c; settlement := settlement c;
                          timerArmed := timerArmed c; closeCalls := closeCalls c;
                          sent := sent c ++ [frame] |}).

(** Settling is one-shot. *)
Definition settle (s : Settlement) : Handler unit :=
  fun c => (Normal tt,
            match settlement c with
            | Some _ => c
            | None => {| servers := servers c; settlement := Some s;
                         timerArmed := timerArmed c; closeCalls := closeCalls c;
                         sent := sent c |}
            end).

Definition resolve_servers : Handler unit := settle Resolved.
Definition reject (reason : string) : Handler unit := settle (Rejected reason).

(** [message[0] === kind && message[1] === subId] *)
Definition is_for (kind subId : string) (message : JSValue) : Completion bool :=
  m0 <- get_index message 0 ;;
  if strict_eq_str m0 kind
  then (m1 <- get_index message 1 ;; Normal (strict_eq_str m1 subId))
  else Normal false.

(** The subscription request sent on open. *)
Definition subscription (subId : string) : JSValue :=
  JArr [JStr "REQ"; JStr subId;
        JObj [("kinds", JArr [JNum 36363]); ("limit", JNum 500)]].

Definition on_open (subId : string) : Handler unit :=
  ws_send (subscription subId).

(** Body of the [try] block of the message callback; [parsed] is what
    [JSON.parse(data.toString())] gives for the frame. *)
Definition on_message_try (subId : string) (parsed : Completion JSValue) : Handler unit :=
  message <~ lift parsed ;;
  isEvent <~ lift (is_for "EVENT" subId message) ;;
  (if isEvent then
     nostrEvent <~ lift (get_index message 2) ;;
     server <~ lift (Parser.parseBlossomServer nostrEvent) ;;
     if truthy server then push server else ret tt
   else ret tt) ;;;
  isEose <~ lift (is_for "EOSE" subId message) ;;
  if isEose then clearTimeout ;;; ws_close ;;; resolve_servers else ret tt.

Definition on_message (subId : string) (parsed : Completion JSValue) : Handler unit :=
  htry (on_message_try subId parsed) (fun _ => ret tt).

Definition on_error (message : string) : Handler unit :=
  clearTimeout ;;; reject (String.append "WebSocket error: " message).

Definition on_close : Handler unit :=
  clearTimeout ;;; resolve_servers.

(** The timer callback runs only if the timer was not cleared. *)
Definition on_timeout : Handler unit :=
  fun c =>
    if timerArmed c
    then (ws_close ;;; resolve_servers)
           {| servers := servers c; settlement := settlement c; timerArmed := false;
              closeCalls := closeCalls c; sent := sent c |}
    else (Normal tt, c).

Inductive WsEvent : Type :=
| Open
| Message (parsed : Completion JSValue)
| Error (message : string)
| Close
| Timeout.

Definition dispatch (subId : string) (e : WsEvent) : Handler unit :=
  match e with
  | Open => on_open subId
  | Message parsed => on_message subId parsed
  | Error message => on_error message
  | Close => on_close
  | Timeout => on_timeout
  end.

(** The callbacks fired on one connection, in order; an uncaught throw
    would end the run. *)
Fixpoint run (subId : string) (events : list WsEvent) : Handler unit :=
  match events with
  | [] => ret tt
  | e :: events' => dispatch subId e ;;; run subId events'
  end.

(** What the promise returned by [queryRelay] looks like from outside. *)
Inductive Promise (A : Type) : Type :=
| Pending
| Fulfilled (value : A)
| RejectedWith (reason : string).
Arguments Pending {A}.
Arguments Fulfilled {A} value.
Arguments RejectedWith {A} reason.

Definition promise (c : Client) : Promise (list JSValue) :=
  match settlement c with
  | None => Pending
  | Some Resolved => Fulfilled (servers c)
  | Some (Rejected reason) => RejectedWith reason
  end.

(** [queryRelay(relay, timeout).catch(err => { ...; return []; })] *)
Definition catch_empty (p : Promise (list JSValue)) : Promise (list JSValue) :=
  match p with
  | RejectedWith _ => Fulfilled []
  | Pending => Pending
  | Fulfilled v => Fulfilled v
  end.

(** State of the connection after the given callbacks. *)
Definition queryRelay (subId : string) (events : list WsEvent) : Client :=
  snd (run subId events initial).

End RelayClient.

(** ** Relay pool: the batching loop of [fetchBlossomServers] *)
Module Orchestrator.

(** [l.slice(i, j)] for [0 <= i <= j] *)
Definition slice {A} (i j : nat) (l : list A) : list A :=
  firstn (j - i) (skipn i l).

(** The batches of
    [for (let i = 0; i < allRelays.length; i += concurrency)], in order.
    Each turn of the loop uses one unit of fuel; [None] is a loop still
    running when the fuel is spent. *)
Fixpoint batches_from (fuel concurrency i : nat) (allRelays : list JSValue)
  : option (list (list JSValue)) :=
  if (i <? List.length allRelays)%nat then
    match fuel with
    | O => None
    | S fuel' =>
        option_map (cons (slice i (i + concurrency) allRelays))
                   (batches_from fuel' concurrency (i + concurrency) allRelays)
    end
  else Some [].

Definition batches (concurrency : nat) (allRelays : list JSValue) : option (list (list JSValue)) :=
  batches_from (List.length allRelays) concurrency 0 allRelays.

(** The loop as a transition system.  [pending] holds the relays whose
    wrapped promise has been created and has not settled; [awaiting] says
    that the loop is suspended in [await Promise.all(batchPromises)].
    Launching a batch adds its queries to the pending ones; a query
    leaves when its promise settles; the loop resumes only when
    [Promise.all] resolves, that is when every promise of the batch has
    settled. *)
Record Loop : Type := mkLoop {
  index : nat;                 (* the loop variable [i] *)
  awaiting : bool;
  pending : list JSValue;
  queried : list JSValue       (* relays passed to [queryRelay] so far *)
}.

Definition start : Loop :=
  {| index := 0; awaiting := false; pending := []; queried := [] |}.

Inductive step (concurrency : nat) (allRelays : list JSValue) : Loop -> Loop -> Prop :=
| step_launch : forall s,
    awaiting s = false ->
    (index s < List.length allRelays)%nat ->
    step concurrency allRelays s
      {| index := index s; awaiting := true;
         pending := pending s ++ slice (index s) (index s + concurrency) allRelays;
         queried := queried s ++ slice (index s) (index s + concurrency) allRelays |}
| step_settle : forall s before relay after,
    awaiting s = true ->
    pending s = before ++ relay :: after ->
    step concurrency allRelays s
      {| index := index s; awaiting := true;
         pending := before ++ after; queried := queried s |}
| step_next : forall s,
    awaiting s = true ->
    pending s = [] ->
    step concurrency allRelays s
      {| index := index s + concurrency; awaiting := false;
         pending := pending s; queried := queried s |}.

Inductive reachable (concurrency : nat) (allRelays : list JSValue) : Loop -> Prop :=
| reach_start : reachable concurrency allRelays start
| reach_step : forall s s',
    reachable concurrency allRelays s ->
    step concurrency allRelays s s' ->
    reachable concurrency allRelays s'.

(** [const concurrency = 6] *)
Definition concurrency : nat := 6.

End Orchestrator.

(** ** Merge, deduplication and sort, on records with integer timestamps

    Records typed as the protocol has them: a string [url] and an integer
    [created_at], for which [>] and [-] are exact.  A record is an
    object, hence truthy, so [!existing] holds exactly when the map has no
    entry for the URL.  The loop over the objects the parser returns,
    whose [created_at] is whatever the event carried, is [ParsedMerge];
    on records with integer [created_at] it computes what this module
    computes on their typed views ([sortedServers_typed]). *)
Module Merge.

Record ServerRecord : Type := mkServer {
  url : string;
  name : option string;
  description : option string;
  pubkey : string;
  created_at : Z;
  event_id : string
}.

(** [new Map()]: entries in insertion order, one per key. *)
Definition ServerMap : Type := list (string * ServerRecord).

Fixpoint map_get (k : string) (m : ServerMap) : option ServerRecord :=
  match m with
  | [] => None
  | (k', v) :: m' => if k' =? k then Some v else map_get k m'
  end.

(** [m.set(k, v)]: an existing key keeps its place, a new key goes last. *)
Fixpoint map_set (k : string) (v : ServerRecord) (m : ServerMap) : ServerMap :=
  match m with
  | [] => [(k, v)]
  | (k', v') :: m' => if k' =? k then (k', v) :: m' else (k', v') :: map_set k v m'
  end.

(** [Array.from(m.values())] *)
Definition map_values (m : ServerMap) : list ServerRecord := map snd m.

(** Body of the inner loop. *)
Definition merge_server (servers : ServerMap) (server : ServerRecord) : ServerMap :=
  match map_get (url server) servers with
  | None => map_set (url server) server servers
  | Some existing =>
      if (created_at server >? created_at existing)%Z
      then map_set (url server) server servers
      else servers
  end.

Definition merge_relay (servers : ServerMap) (relayServers : list ServerRecord) : ServerMap :=
  fold_left merge_server relayServers servers.

Definition merge_results (results : list (list ServerRecord)) : ServerMap :=
  fold_left merge_relay results [].

(** [Array.prototype.sort] is stable; for a comparator that orders by a
    key this insertion sort computes the stable result. *)
Fixpoint sort_insert (cmp : ServerRecord -> ServerRecord -> Z) (x : ServerRecord)
         (l : list ServerRecord) : list ServerRecord :=
  match l with
  | [] => [x]
  | y :: l' => if (cmp x y >? 0)%Z then y :: sort_insert cmp x l' else x :: y :: l'
  end.

Definition js_sort (cmp : ServerRecord -> ServerRecord -> Z) (l : list ServerRecord)
  : list ServerRecord :=
  fold_right (sort_insert cmp) [] l.

(** [(a, b) => b.created_at - a.created_at] *)
Definition newest_first (a b : ServerRecord) : Z := (created_at b - created_at a)%Z.

(** The merged records, newest first. *)
Definition merge (results : list (list ServerRecord)) : list ServerRecord :=
  js_sort newest_first (map_values (merge_results results)).

(** [sortedServers] *)
Definition sortedServers (results : list (list ServerRecord)) : list string :=
  map url (merge results).

End Merge.

(** ** Relay selection: the head of [fetchBlossomServers] *)
Module Session.

Definition coreRelays : list string :=
  ["wss://relay.damus.io"; "wss://nos.lol"; "wss://relay.nostr.band"; "wss://relay.primal.net"].

(** Outcome of the directory request: [fetch] throws (network error or
    abort), or answers with [response.ok] and the outcome of
    [response.json()]. *)
Inductive Bootstrap : Type :=
| FetchThrows (message : string)
| Response (ok : bool) (json : Completion JSValue).

(** [typeof relay === 'string' && relay.startsWith('wss://')] *)
Definition is_wss (relay : JSValue) : bool :=
  match relay with
  | JStr s => String.prefix "wss://" s
  | _ => false
  end.

(** [coreRelays.includes(relay)] *)
Definition core_includes (relay : JSValue) : bool :=
  existsb (strict_eq_str relay) coreRelays.

Definition maxAdditional : nat := 16.

Section Selection.

(** [additionalRelays.sort(() => Math.random() - 0.5)]: some reordering of
    the array. *)
Variable shuffle : list JSValue -> list JSValue.

(** Body of the [try] block; the result is the new [allRelays], if it is
    assigned. *)
Definition select_try (b : Bootstrap) : Completion (option (list JSValue)) :=
  match b with
  | FetchThrows message => Throw message
  | Response false _ => Normal None
  | Response true json =>
      onlineRelays <- json ;;
      wss <- call_filter onlineRelays is_wss ;;
      let additionalRelays := filter (fun relay => negb (core_includes relay)) wss in
      let shuffled := shuffle additionalRelays in
      let selectedRelays := Orchestrator.slice 0 maxAdditional shuffled in
      Normal (Some (map JStr coreRelays ++ selectedRelays))
  end.

Definition allRelays (b : Bootstrap) : list JSValue :=
  match select_try b with
  | Normal (Some relays) => relays
  | Normal None | Throw _ => map JStr coreRelays
  end.

Definition relaysSearched (b : Bootstrap) : nat := List.length (allRelays b).

End Selection.

End Session.

(** ** Vocabulary of the specification for events

    These follow the wording of the parser's contract, not its code: the
    tag list of an event, the first tag carrying a marker, and the value
    (second element) of a tag. *)
Module EventSpec.

(** The tag list of an event; an event without an array of tags has none. *)
Definition event_tags (event : JSValue) : list JSValue :=
  match get_field event "tags" with
  | Normal (JArr tags) => tags
  | _ => []
  end.

(** A tag whose first element equals the marker. *)
Definition has_marker (marker : string) (tag : JSValue) : bool :=
  match get_index tag 0 with
  | Normal t0 => strict_eq_str t0 marker
  | Throw _ => false
  end.

Definition first_tag (marker : string) (tags : list JSValue) : option JSValue :=
  find (has_marker marker) tags.

(** The second element of a tag, [undefined] when it is missing. *)
Definition tag_value (tag : JSValue) : JSValue :=
  match get_index tag 1 with
  | Normal v => v
  | Throw _ => JUndefined
  end.

(** Optional metadata: the value of the first tag with the marker, [null]
    without such a tag. *)
Definition metadata (marker : string) (tags : list JSValue) : JSValue :=
  match first_tag marker tags with
  | Some tag => tag_value tag
  | None => JNull
  end.

(** A field of the event, [undefined] when it is missing. *)
Definition event_field (event : JSValue) (k : string) : JSValue :=
  match get_field event k with
  | Normal v => v
  | Throw _ => JUndefined
  end.

Definition nullish (v : JSValue) : bool :=
  match v with
  | JUndefined | JNull => true
  | _ => false
  end.

(** The value of the first ["d"] tag is a non-empty string with the
    secure-HTTP prefix. *)
Definition valid_url (event : JSValue) (s : string) : Prop :=
  exists dTag,
    first_tag "d" (event_tags event) = Some dTag /\
    tag_value dTag = JStr s /\ s <> "" /\ String.prefix "https://" s = true.

End EventSpec.

(** ** Invariants and vocabulary used by the proofs *)
Module ClientSpec.
Import RelayClient.

(** What every callback preserves: a settled promise stays as it settled,
    and [servers] only grows. *)
Definition extends (c c' : Client) : Prop :=
  (forall s, settlement c = Some s -> settlement c' = Some s) /\
  (exists more, servers c' = servers c ++ more).

Definition monotone {A} (h : Handler A) : Prop := forall c, extends c (snd (h c)).

End ClientSpec.

Module LoopSpec.
Import Orchestrator.

(** What holds in every state the loop can reach. *)
Definition loop_invariant (limit : nat) (relays : list JSValue) (s : Loop) : Prop :=
  length (pending s) <= limit /\
  (awaiting s = false -> pending s = []) /\
  queried s = firstn (if awaiting s then index s + limit else index s) relays.

End LoopSpec.

Module MergeSpec.
Import Merge.

(** The two nested loops are one loop over all records in order. *)
Definition merge_list (l : list ServerRecord) (m : ServerMap) : ServerMap :=
  fold_left merge_server l m.

(** The keys of the map, in insertion order. *)
Definition keys (m : ServerMap) : list string := map fst m.

(** Every entry is stored under the [url] of its record, once. *)
Definition keyed (m : ServerMap) : Prop :=
  NoDup (keys m) /\ forall k v, In (k, v) m -> url v = k.

(** [r] is the record the loop keeps for [u] after processing [l]: the
    first of the records with that URL whose [created_at] is greatest. *)
Definition winner (l : list ServerRecord) (u : string) (r : ServerRecord) : Prop :=
  exists before after,
    l = before ++ r :: after /\ url r = u /\
    (forall x, In x before -> url x = u -> (created_at x < created_at r)%Z) /\
    (forall x, In x after -> url x = u -> (created_at x <= created_at r)%Z).

Definition tracks (l : list ServerRecord) (m : ServerMap) : Prop :=
  forall u,
    match map_get u m with
    | Some r => winner l u r
    | None => forall x, In x l -> url x <> u
    end.

End MergeSpec.

Module SessionSpec.
Import Session.

(** The directory answered with an array of candidates. *)
Definition bootstrap_succeeded (b : Bootstrap) : Prop :=
  exists online, b = Response true (Normal (JArr online)).

Definition sampled_relay (relay : JSValue) : Prop :=
  exists s, relay = JStr s /\ String.prefix "wss://" s = true /\ ~ In s coreRelays.

End SessionSpec.

(** ** Concrete events, frames and records used as examples *)
Module Examples.
Import RelayClient Merge Session.

Definition event_missing_d : JSValue :=
  JObj [("tags", JArr [JArr [JStr "name"; JStr "x"]]); ("pubkey", JStr "pk");
        ("created_at", JNum 100); ("id", JStr "e1")].

Definition event_example : JSValue :=
  JObj [("tags", JArr [JArr [JStr "d"; JStr "https://x.example"]]);
        ("pubkey", JStr "pk"); ("created_at", JNum 100); ("id", JStr "e1")].

Definition event_null_tag : JSValue :=
  JObj [("tags", JArr [JArr [JStr "d"; JStr "https://x.example"]; JNull]);
        ("pubkey", JStr "pk"); ("created_at", JNum 100); ("id", JStr "e1")].

Definition frames_example : list WsEvent :=
  [Open; Message (Normal (JArr [JStr "EVENT"; JStr "blossom-abc"; event_example]))].

Definition eight_relays : list JSValue :=
  map JStr ["wss://r1"; "wss://r2"; "wss://r3"; "wss://r4";
            "wss://r5"; "wss://r6"; "wss://r7"; "wss://r8"].

Definition directory_answer : Bootstrap :=
  Response true
    (Normal (JArr [JStr "wss://a.example"; JStr "ws://b.example"; JNum 3;
                   JStr "wss://nos.lol"; JStr "wss://c.example"])).

Definition server (u : string) (t : Z) (e : string) : ServerRecord :=
  {| url := u; name := None; description := None; pubkey := "pk";
     created_at := t; event_id := e |}.

Definition scenario : list (list ServerRecord) :=
  [[server "https://url1.example" 100 "a1"; server "https://url2.example" 50 "a2"];
   [server "https://url1.example" 200 "b1"; server "https://url3.example" 75 "b3"];
   []].

End Examples.

(** ** The message callback as a transition

    What a decoded frame is for the subscription, and what each kind of
    frame does to the connection. *)
Module FrameSpec.
Import RelayClient.

Inductive Frame : Type :=
| EventFrame (nostrEvent : JSValue)   (* [["EVENT", subId, nostrEvent]] *)
| EoseFrame                           (* [["EOSE", subId]] *)
| OtherFrame.                         (* anything else, undecodable data included *)

Definition classify (subId : string) (parsed : Completion JSValue) : Frame :=
  match parsed with
  | Throw _ => OtherFrame
  | Normal message =>
      match is_for "EVENT" subId message with
      | Normal true =>
          EventFrame (match get_index message 2 with
                      | Normal v => v
                      | Throw _ => JUndefined
                      end)
      | Normal false =>
          match is_for "EOSE" subId message with
          | Normal true => EoseFrame
          | _ => OtherFrame
          end
      | Throw _ => OtherFrame
      end
  end.

Definition apply_frame (f : Frame) (c : Client) : Client :=
  match f with
  | EventFrame nostrEvent =>
      match Parser.parseBlossomServer nostrEvent with
      | Normal server =>
          if truthy server
          then {| servers := servers c ++ [server]; settlement := settlement c;
                  timerArmed := timerArmed c; closeCalls := closeCalls c; sent := sent c |}
          else c
      | Throw _ => c
      end
  | EoseFrame =>
      {| servers := servers c;
         settlement := match settlement c with
                       | Some s => Some s
                       | None => Some Resolved
                       end;
         timerArmed := false; closeCalls := S (closeCalls c); sent := sent c |}
  | OtherFrame => c
  end.

(** A record as the parser builds them: an object whose first property is
    a non-empty [url] string with the secure-HTTP prefix. *)
Definition https_record (v : JSValue) : Prop :=
  exists s fields,
    v = JObj (("url", JStr s) :: fields) /\ s <> "" /\ String.prefix "https://" s = true.

(** An event frame for the subscription. *)
Definition is_event_frame (subId : string) (e : WsEvent) : bool :=
  match e with
  | Message parsed =>
      match classify subId parsed with
      | EventFrame _ => true
      | _ => false
      end
  | _ => false
  end.

(** The timer is armed exactly while the promise is pending. *)
Definition timer_follows_promise (c : Client) : Prop :=
  timerArmed c = match settlement c with None => true | Some _ => false end.

Definition is_open (e : WsEvent) : bool :=
  match e with Open => true | _ => false end.

End FrameSpec.

(** ** Vocabulary for the order of the merged list *)
Module OrderSpec.
Import Merge.

(** The URLs of a list, each once, in order of first appearance. *)
Fixpoint first_seen (urls : list string) : list string :=
  match urls with
  | [] => []
  | u :: urls' => u :: filter (fun v => negb (v =? u)) (first_seen urls')
  end.

End OrderSpec.

(** ** Aggregation of the batch results, and the whole of
    [fetchBlossomServers] *)
Module Aggregation.
Import Orchestrator.

(** [await Promise.all(batch.map(relay => queryRelay(relay, timeout).catch(...)))]:
    the values the wrapped promises of a batch settle to, in the order of
    the batch.  [settled n relay] is the value of the [n]-th query
    launched, which is for [relay]; every wrapped promise settles, by the
    timer at the latest. *)
Fixpoint await_batch {R} (settled : nat -> JSValue -> R) (n : nat) (batch : list JSValue)
  : list R :=
  match batch with
  | [] => []
  | relay :: batch' => settled n relay :: await_batch settled (S n) batch'
  end.

(** [results.push(...batchResults)] over the batches in turn. *)
Definition collect {R} (settled : nat -> JSValue -> R) (bs : list (list JSValue)) : list R :=
  fst (fold_left
         (fun (acc : list R * nat) batch =>
            (fst acc ++ await_batch settled (snd acc) batch, snd acc + length batch))
         bs ([], 0)).



End Aggregation.

(** ** JavaScript [>] and [-] on the values of a [created_at]

    [event.created_at] reaches the merge as the relay sent it.  The
    operators follow ECMAScript on [undefined], [null], booleans, integer
    numbers and strings; what they leave out yields [None]: arrays and
    objects (whose conversion to a primitive runs [toString]), and the
    conversion to a number of a string that is not a run of one to
    fifteen decimal digits. *)
Module JSOps.

Inductive JSNumber : Type :=
| Int (z : Z)
| NaN.

Definition is_digit (c : ascii) : bool :=
  (48 <=? nat_of_ascii c)%nat && (nat_of_ascii c <=? 57)%nat.

Fixpoint all_digits (s : string) : bool :=
  match s with
  | EmptyString => true
  | String c s' => is_digit c && all_digits s'
  end.

Fixpoint digits_value (acc : Z) (s : string) : Z :=
  match s with
  | EmptyString => acc
  | String c s' => digits_value (10 * acc + Z.of_nat (nat_of_ascii c - 48)) s'
  end.

(** [ToNumber(v)] *)
Definition to_number (v : JSValue) : option JSNumber :=
  match v with
  | JUndefined => Some NaN
  | JNull => Some (Int 0)
  | JBool b => Some (Int (if b then 1 else 0))
  | JNum z => Some (Int z)
  | JStr s =>
      if all_digits s && (1 <=? String.length s)%nat && (String.length s <=? 15)%nat
      then Some (Int (digits_value 0 s))
      else None
  | JArr _ | JObj _ => None
  end.

(** [a > b]: two strings compare by their characters; otherwise both
    operands are converted to numbers, and a comparison with [NaN] is
    false. *)
Definition js_gt (a b : JSValue) : option bool :=
  match a, b with
  | JArr _, _ | JObj _, _ | _, JArr _ | _, JObj _ => None
  | JStr s, JStr t => Some (String.ltb t s)
  | _, _ =>
      match to_number a, to_number b with
      | Some NaN, _ | _, Some NaN => Some false
      | Some (Int x), Some (Int y) => Some (x >? y)%Z
      | _, _ => None
      end
  end.

(** [a - b]: both operands are converted to numbers; [NaN] if either is. *)
Definition js_sub (a b : JSValue) : option JSNumber :=
  match a, b with
  | JArr _, _ | JObj _, _ | _, JArr _ | _, JObj _ => None
  | _, _ =>
      match to_number a, to_number b with
      | Some NaN, _ | _, Some NaN => Some NaN
      | Some (Int x), Some (Int y) => Some (Int (x - y))
      | _, _ => None
      end
  end.

End JSOps.

(** ** Merge and sort of the parsed records

    The loop of [fetchBlossomServers] over the objects the parser built:
    [url] is a string (the parser returns no other record), every other
    field is whatever the event carried.  [None] is a run that meets a
    comparison [JSOps] leaves out. *)
Module ParsedMerge.
Import JSOps.

Record Announcement : Type := mkAnnouncement {
  url : string;
  name : JSValue;
  description : JSValue;
  pubkey : JSValue;
  created_at : JSValue;
  event_id : JSValue
}.

(** The object the parser returns. *)
Definition to_js (r : Announcement) : JSValue :=
  JObj [("url", JStr (url r));
        ("name", name r);
        ("description", description r);
        ("pubkey", pubkey r);
        ("created_at", created_at r);
        ("event_id", event_id r)].

(** [new Map()]: entries in insertion order, one per key. *)
Definition ServerMap : Type := list (string * Announcement).

Fixpoint map_get (k : string) (m : ServerMap) : option Announcement :=
  match m with
  | [] => None
  | (k', v) :: m' => if k' =? k then Some v else map_get k m'
  end.

Fixpoint map_set (k : string) (v : Announcement) (m : ServerMap) : ServerMap :=
  match m with
  | [] => [(k, v)]
  | (k', v') :: m' => if k' =? k then (k', v) :: m' else (k', v') :: map_set k v m'
  end.

Definition map_values (m : ServerMap) : list Announcement := map snd m.

(** Body of the inner loop:
    [if (!existing || server.created_at > existing.created_at)
       servers.set(server.url, server)] *)
Definition merge_server (servers : ServerMap) (server : Announcement) : option ServerMap :=
  match map_get (url server) servers with
  | None => Some (map_set (url server) server servers)
  | Some existing =>
      match js_gt (created_at server) (created_at existing) with
      | Some true => Some (map_set (url server) server servers)
      | Some false => Some servers
      | None => None
      end
  end.

(** [for (const server of relayServers)] *)
Fixpoint merge_relay (servers : ServerMap) (relayServers : list Announcement)
  : option ServerMap :=
  match relayServers with
  | [] => Some servers
  | server :: rest =>
      match merge_server servers server with
      | Some servers' => merge_relay servers' rest
      | None => None
      end
  end.

(** [for (const relayServers of results)] *)
Fixpoint merge_results (servers : ServerMap) (results : list (list Announcement))
  : option ServerMap :=
  match results with
  | [] => Some servers
  | relayServers :: rest =>
      match merge_relay servers relayServers with
      | Some servers' => merge_results servers' rest
      | None => None
      end
  end.

(** [(a, b) => b.created_at - a.created_at] *)
Definition newest_first (a b : Announcement) : option JSNumber :=
  js_sub (created_at b) (created_at a).

Definition positive (n : option JSNumber) : bool :=
  match n with
  | Some (Int z) => (z >? 0)%Z
  | _ => false
  end.

Definition is_number (n : option JSNumber) : bool :=
  match n with
  | Some (Int _) => true
  | _ => false
  end.

Fixpoint sort_insert (cmp : Announcement -> Announcement -> option JSNumber)
         (x : Announcement) (l : list Announcement) : list Announcement :=
  match l with
  | [] => [x]
  | y :: l' => if positive (cmp x y) then y :: sort_insert cmp x l' else x :: y :: l'
  end.

(** [Array.prototype.sort]: ECMAScript fixes the result for a consistent
    comparator, and it is then the stable sorting.  The result is given
    when the comparator yields a number for every two elements, where a
    comparator that subtracts keys is consistent, and for arrays of less
    than two elements; otherwise the order depends on the engine and is
    left out. *)
Definition array_sort (cmp : Announcement -> Announcement -> option JSNumber)
           (l : list Announcement) : option (list Announcement) :=
  match l with
  | [] | [_] => Some l
  | _ =>
      if forallb (fun a => forallb (fun b => is_number (cmp a b)) l) l
      then Some (fold_right (sort_insert cmp) [] l)
      else None
  end.

(** The merged records, newest first. *)
Definition merge (results : list (list Announcement)) : option (list Announcement) :=
  match merge_results [] results with
  | Some servers => array_sort newest_first (map_values servers)
  | None => None
  end.

(** [sortedServers] *)
Definition sortedServers (results : list (list Announcement)) : option (list string) :=
  option_map (map url) (merge results).

(** The [created_at] is an integer number, as the protocol has it. *)
Definition integer_time (r : Announcement) : Prop := exists z, created_at r = JNum z.

(** The integer a [created_at] holds. *)
Definition time (r : Announcement) : Z :=
  match created_at r with
  | JNum z => z
  | _ => 0
  end.

End ParsedMerge.

(** ** Merge by an integer key

    The same loop and sort over any record type with a [url] and an
    integer [time]: what [ParsedMerge] computes when every [created_at] is
    an integer. *)
Module Timed.
Section Defs.
Variable R : Type.
Variable url : R -> string.
Variable time : R -> Z.

Fixpoint map_get (k : string) (m : list (string * R)) : option R :=
  match m with
  | [] => None
  | (k', v) :: m' => if k' =? k then Some v else map_get k m'
  end.

Fixpoint map_set (k : string) (v : R) (m : list (string * R)) : list (string * R) :=
  match m with
  | [] => [(k, v)]
  | (k', v') :: m' => if k' =? k then (k', v) :: m' else (k', v') :: map_set k v m'
  end.

Definition map_values (m : list (string * R)) : list R := map snd m.

Definition merge_server (servers : list (string * R)) (server : R) : list (string * R) :=
  match map_get (url server) servers with
  | None => map_set (url server) server servers
  | Some existing =>
      if (time server >? time existing)%Z
      then map_set (url server) server servers
      else servers
  end.

Definition merge_list (l : list R) (m : list (string * R)) : list (string * R) :=
  fold_left merge_server l m.

Fixpoint sort_insert (x : R) (l : list R) : list R :=
  match l with
  | [] => [x]
  | y :: l' => if (time y - time x >? 0)%Z then y :: sort_insert x l' else x :: y :: l'
  end.

Definition sort (l : list R) : list R := fold_right sort_insert [] l.

Definition merge (l : list R) : list R := sort (map_values (merge_list l [])).

Definition keys (m : list (string * R)) : list string := map fst m.

(** Every entry is stored under the [url] of its record, once. *)
Definition keyed (m : list (string * R)) : Prop :=
  NoDup (keys m) /\ forall k v, In (k, v) m -> url v = k.

(** [r] is the record kept for [u] after processing [l]: the first of the
    records with that URL whose [time] is greatest. *)
Definition winner (l : list R) (u : string) (r : R) : Prop :=
  exists before after,
    l = before ++ r :: after /\ url r = u /\
    (forall x, In x before -> url x = u -> (time x < time r)%Z) /\
    (forall x, In x after -> url x = u -> (time x <= time r)%Z).

Definition tracks (l : list R) (m : list (string * R)) : Prop :=
  forall u,
    match map_get u m with
    | Some r => winner l u r
    | None => forall x, In x l -> url x <> u
    end.

Definition covers (m : list (string * R)) (l : list R) : Prop :=
  forall s, In s l -> exists e, map_get (url s) m = Some e /\ (time s <= time e)%Z.

Definition not_older (a b : R) : Prop := (time a >= time b)%Z.
Definition newer (a b : R) : Prop := (time a > time b)%Z.

(** No two different records carry the same [time]. *)
Definition distinct_times (l : list R) : Prop :=
  forall a b, In a l -> In b l -> time a = time b -> a = b.

(** Records with the same [time] have the same [url]. *)
Definition ties_within_url (l : list R) : Prop :=
  forall a b, In a l -> In b l -> time a = time b -> url a = url b.

Definition newest_of (l : list R) (v : R) : Prop :=
  In v l /\ forall x, In x l -> url x = url v -> (time x <= time v)%Z.

End Defs.
Arguments map_get {R}.
Arguments map_set {R}.
Arguments map_values {R}.
Arguments merge_server {R}.
Arguments merge_list {R}.
Arguments sort_insert {R}.
Arguments sort {R}.
Arguments merge {R}.
Arguments keys {R}.
Arguments keyed {R}.
Arguments winner {R}.
Arguments tracks {R}.
Arguments covers {R}.
Arguments not_older {R}.
Arguments newer {R}.
Arguments distinct_times {R}.
Arguments ties_within_url {R}.
Arguments newest_of {R}.
End Timed.

(** ** Vocabulary and examples for the merge of parsed records *)
Module ParsedSpec.
Import JSOps ParsedMerge.

(** Every record of the input carries an integer [created_at]. *)
Definition integer_times (results : list (list Announcement)) : Prop :=
  Forall integer_time (concat results).

Definition not_older (a b : Announcement) : Prop := (time a >= time b)%Z.
Definition newer (a b : Announcement) : Prop := (time a > time b)%Z.

(** No two different records carry the same [created_at]. *)
Definition distinct_times (l : list Announcement) : Prop :=
  forall a b, In a l -> In b l -> time a = time b -> a = b.

(** Records with the same [created_at] have the same [url]. *)
Definition ties_within_url (l : list Announcement) : Prop :=
  forall a b, In a l -> In b l -> time a = time b -> url a = url b.

(** The record of [Merge] that keeps the [url] and the integer
    [created_at] of a parsed record. *)
Definition typed_view (r : Announcement) : Merge.ServerRecord :=
  {| Merge.url := url r; Merge.name := None; Merge.description := None;
     Merge.pubkey := ""; Merge.created_at := time r; Merge.event_id := "" |}.

Definition announcement (u : string) (t : JSValue) (e : string) : Announcement :=
  {| url := u; name := JNull; description := JNull; pubkey := JStr "pk";
     created_at := t; event_id := JStr e |}.

Definition tie_two_urls : list (list Announcement) :=
  [[announcement "https://a.example" (JNum 100) "e1"];
   [announcement "https://b.example" (JNum 100) "e2"]].

Definition tie_one_url : list (list Announcement) :=
  [[announcement "https://a.example" (JNum 100) "e1"];
   [announcement "https://a.example" (JNum 100) "e2"]].

Definition relays_scenario : list (list Announcement) :=
  [[announcement "https://url1.example" (JNum 100) "a1";
    announcement "https://url2.example" (JNum 50) "a2"];
   [announcement "https://url1.example" (JNum 200) "b1";
    announcement "https://url3.example" (JNum 75) "b3"];
   []].

(** One URL announced with a [created_at] of ["10"], [5] and ["2"]. *)
Definition mixed_times : list (list Announcement) :=
  [[announcement "https://a.example" (JStr "10") "e1";
    announcement "https://a.example" (JNum 5) "e2";
    announcement "https://a.example" (JStr "2") "e3"]].

(** One URL announced with a [created_at] of ["300"], then ["4"]. *)
Definition string_times : list (list Announcement) :=
  [[announcement "https://a.example" (JStr "300") "e1";
    announcement "https://a.example" (JStr "4") "e2"]].

End ParsedSpec.

(** ** Counting the entries of a relay list *)
Module RelayCount.

(** How many entries of a list are the string [s]. *)
Definition occurrences (s : string) (l : list JSValue) : nat :=
  length (filter (fun v => strict_eq_str v s) l).

End RelayCount.

(** * Properties *)

(** ** Event parser *)
Section ParserFacts.
Import Parser EventSpec Examples.

Lemma has_marker_tag_is marker tag :
  nullish tag = false -> tag_is marker tag = Normal (has_marker marker tag).
Proof.
  unfold tag_is, has_marker; destruct tag; simpl; intros H; try discriminate; reflexivity.
Qed.

Lemma tag_is_throws marker tag :
  nullish tag = true -> exists e, tag_is marker tag = Throw e.
Proof.
  destruct tag; simpl; intros H; try discriminate; eexists; reflexivity.
Qed.

Lemma has_marker_not_nullish marker tag :
  has_marker marker tag = true -> nullish tag = false.
Proof. destruct tag; simpl; intros H; try discriminate; reflexivity. Qed.

Lemma has_marker_truthy marker tag :
  has_marker marker tag = true -> truthy tag = true.
Proof.
  destruct tag; simpl; try discriminate; try reflexivity.
  destruct s; simpl; [discriminate | reflexivity].
Qed.

(** The search either throws on a [null] entry or finds the first tag with
    the marker. *)
Lemma find_elem_first_tag marker tags :
  (exists e, find_elem (tag_is marker) tags = Throw e) \/
  find_elem (tag_is marker) tags =
    Normal (match first_tag marker tags with Some t => t | None => JUndefined end).
Proof.
  induction tags as [|x tags IH]; simpl.
  - right; reflexivity.
  - destruct (nullish x) eqn:Hx.
    + left. destruct (tag_is_throws marker x Hx) as [e He]. exists e. now rewrite He.
    + rewrite (has_marker_tag_is marker x Hx). simpl.
      unfold first_tag; simpl.
      destruct (has_marker marker x); [right; reflexivity | exact IH].
Qed.

Lemma find_elem_no_null marker tags :
  forallb (fun t => negb (nullish t)) tags = true ->
  find_elem (tag_is marker) tags =
    Normal (match first_tag marker tags with Some t => t | None => JUndefined end).
Proof.
  induction tags as [|x tags IH]; simpl; intros H.
  - reflexivity.
  - apply andb_true_iff in H as [Hx Hr]. apply negb_true_iff in Hx.
    rewrite (has_marker_tag_is marker x Hx). simpl.
    unfold first_tag; simpl.
    destruct (has_marker marker x); [reflexivity | now apply IH].
Qed.

Lemma first_tag_has_marker marker tags t :
  first_tag marker tags = Some t -> has_marker marker t = true.
Proof. intros H. apply find_some in H. tauto. Qed.

Lemma found_value marker tags t :
  first_tag marker tags = Some t -> get_index t 1 = Normal (tag_value t).
Proof.
  intros H. apply first_tag_has_marker, has_marker_not_nullish in H.
  unfold tag_value. destruct t; simpl in *; try discriminate; reflexivity.
Qed.

Lemma parse_cases event :
  Parser.parseBlossomServer event = Normal JNull \/
  exists s, valid_url event s /\
    exists fields, Parser.parseBlossomServer event = Normal (JObj (("url", JStr s) :: fields)).
Proof.
  unfold parseBlossomServer, parseBlossomServer_try, valid_url, event_tags.
  destruct (get_field event "tags") as [tags|e] eqn:Htags; simpl; [|now left].
  destruct tags as [ | | | | |tags| ]; simpl; try now left.
  destruct (find_elem_first_tag "d" tags) as [[e He]|Hd]; [rewrite He; simpl; now left|].
  rewrite Hd; simpl.
  destruct (first_tag "d" tags) as [dTag|] eqn:Hfd; simpl; [|now left].
  rewrite (has_marker_truthy "d" dTag (first_tag_has_marker _ _ _ Hfd)); simpl.
  rewrite (found_value _ _ _ Hfd); simpl.
  destruct (truthy (tag_value dTag)) eqn:Htr; simpl; [|now left].
  destruct (tag_value dTag) as [ | | | |s| | ] eqn:Hv; simpl; try now left.
  destruct (String.prefix "https://" s) eqn:Hp; simpl; [|now left].
  destruct (find_elem_first_tag "name" tags) as [[e He]|Hn]; [rewrite He; simpl; now left|].
  rewrite Hn; simpl.
  destruct (find_elem_first_tag "description" tags) as [[e He]|Hde]; [rewrite He; simpl; now left|].
  rewrite Hde; simpl.
  right. exists s. split.
  { exists dTag. repeat split; auto. intros ->. discriminate. }
  destruct (first_tag "name" tags) as [nt|] eqn:Hfn; simpl;
  destruct (first_tag "description" tags) as [dt|] eqn:Hfde; simpl;
  repeat match goal with
  | H : first_tag ?m tags = Some ?t |- _ =>
      rewrite (has_marker_truthy m t (first_tag_has_marker _ _ _ H));
      rewrite (found_value _ _ _ H); simpl; clear H
  end;
  destruct event; simpl in *; try discriminate; eexists; reflexivity.
Qed.

End ParserFacts.

Section ParserClaims.
Import Parser EventSpec Examples.

(** C6: an event without a ["d"] tag, or whose first ["d"] tag has a
    missing or empty value, or whose ["d"] value is not a string starting
    with [https://], is parsed to [null]: no record is produced. *)
Theorem parse_rejects_invalid_d_tag (event : JSValue) :
  first_tag "d" (event_tags event) = None \/
  (exists dTag, first_tag "d" (event_tags event) = Some dTag /\
                (tag_value dTag = JUndefined \/ tag_value dTag = JStr "")) \/
  (exists dTag, first_tag "d" (event_tags event) = Some dTag /\
                ~ (exists s, tag_value dTag = JStr s /\ String.prefix "https://" s = true)) ->
  parseBlossomServer event = Normal JNull.
Proof.
  intros H.
  destruct (parse_cases event) as [Hnull|(s & (dTag & Hf & Hv & Hne & Hp) & _)]; [exact Hnull|].
  exfalso.
  destruct H as [H|[(t & Ht & Hval)|(t & Ht & Hval)]]; rewrite Hf in *.
  - discriminate.
  - injection Ht as <-. rewrite Hv in Hval. destruct Hval as [Hval|Hval]; [discriminate|].
    injection Hval as ->. now apply Hne.
  - injection Ht as <-. apply Hval. now exists s.
Qed.

Lemma parse_rejects_invalid_d_tag_witness :
  parseBlossomServer event_missing_d = Normal JNull.
Proof. apply parse_rejects_invalid_d_tag. left. reflexivity. Defined.

(** C5, as the code has it: for an event whose tag list holds no [null]
    entry and whose first ["d"] tag has a non-empty value [s] starting
    with [https://], the parser returns the record with [url = s], [name]
    and [description] the value of the first tag so marked ([null] without
    such a tag), and [pubkey], [created_at], [event_id] the event's
    [pubkey], [created_at] and [id]. *)
Theorem parse_valid_event (event : JSValue) (s : string) :
  valid_url event s ->
  forallb (fun tag => negb (nullish tag)) (event_tags event) = true ->
  parseBlossomServer event =
    Normal (JObj [("url", JStr s);
                  ("name", metadata "name" (event_tags event));
                  ("description", metadata "description" (event_tags event));
                  ("pubkey", event_field event "pubkey");
                  ("created_at", event_field event "created_at");
                  ("event_id", event_field event "id")]).
Proof.
  intros (dTag & Hfd & Hv & Hne & Hp) Hnn.
  unfold parseBlossomServer, parseBlossomServer_try, metadata, event_field.
  unfold event_tags in *.
  destruct (get_field event "tags") as [tags|e] eqn:Htags; simpl in *; [|discriminate].
  destruct tags as [ | | | | |tags| ]; simpl in *; try discriminate.
  rewrite !find_elem_no_null by assumption. simpl.
  rewrite Hfd; simpl.
  rewrite (has_marker_truthy "d" dTag (first_tag_has_marker _ _ _ Hfd)); simpl.
  rewrite (found_value _ _ _ Hfd), Hv; simpl.
  assert (Hs : (s =? "") = false) by now apply String.eqb_neq.
  rewrite Hs, Hp; simpl.
  destruct (first_tag "name" tags) as [nt|] eqn:Hfn; simpl;
  destruct (first_tag "description" tags) as [dt|] eqn:Hfde; simpl;
  repeat match goal with
  | H : first_tag ?m tags = Some ?t |- _ =>
      rewrite (has_marker_truthy m t (first_tag_has_marker _ _ _ H));
      rewrite (found_value _ _ _ H); simpl; clear H
  end;
  destruct event; simpl in *; try discriminate; reflexivity.
Qed.

Lemma event_example_valid : valid_url event_example "https://x.example".
Proof.
  exists (JArr [JStr "d"; JStr "https://x.example"]).
  repeat split; try reflexivity. discriminate.
Defined.

Lemma parse_valid_event_witness :
  parseBlossomServer event_example =
    Normal (JObj [("url", JStr "https://x.example"); ("name", JNull); ("description", JNull);
                  ("pubkey", JStr "pk"); ("created_at", JNum 100); ("event_id", JStr "e1")]).
Proof.
  apply (parse_valid_event event_example "https://x.example").
  - exact event_example_valid.
  - reflexivity.
Defined.

(** C5 as stated fails: the first ["d"] tag of this event is valid, yet a
    [null] entry later in the tag list makes the search for the ["name"]
    tag throw, and the parser returns [null]. *)
Lemma parse_valid_d_tag_null_entry :
  valid_url event_null_tag "https://x.example" /\
  parseBlossomServer event_null_tag = Normal JNull.
Proof.
  split.
  - exists (JArr [JStr "d"; JStr "https://x.example"]).
    repeat split; try reflexivity. discriminate.
  - reflexivity.
Qed.

End ParserClaims.

Section RelayClientFacts.
Import RelayClient.

Lemma on_message_returns subId parsed c :
  fst (on_message subId parsed c) = Normal tt.
Proof.
  unfold on_message, htry.
  destruct (on_message_try subId parsed c) as [[[]|e] c'] eqn:H; reflexivity.
Qed.

Lemma dispatch_returns subId e c :
  fst (dispatch subId e c) = Normal tt.
Proof.
  destruct e; simpl; try reflexivity.
  - apply on_message_returns.
  - unfold on_timeout. destruct (timerArmed c); reflexivity.
Qed.

Lemma run_returns subId events c :
  fst (run subId events c) = Normal tt.
Proof.
  revert c. induction events as [|e events IH]; intros c; simpl; [reflexivity|].
  unfold hbind. pose proof (dispatch_returns subId e c) as H.
  destruct (dispatch subId e c) as [r c']. simpl in H. subst r. apply IH.
Qed.

Lemma run_app subId events later c :
  snd (run subId (events ++ later) c) = snd (run subId later (snd (run subId events c))).
Proof.
  revert c. induction events as [|e events IH]; intros c; simpl; [reflexivity|].
  unfold hbind. pose proof (dispatch_returns subId e c) as H.
  destruct (dispatch subId e c) as [r c']. simpl in H. subst r. apply IH.
Qed.

Lemma queryRelay_app subId events later :
  queryRelay subId (events ++ later) = snd (run subId later (queryRelay subId events)).
Proof. unfold queryRelay. apply run_app. Qed.

End RelayClientFacts.

Section RelayClientInvariants.
Import RelayClient ClientSpec Examples.

Lemma extends_refl c : extends c c.
Proof. split; [auto | exists []; now rewrite app_nil_r]. Qed.

Lemma extends_trans c1 c2 c3 : extends c1 c2 -> extends c2 c3 -> extends c1 c3.
Proof.
  intros [S1 [m1 E1]] [S2 [m2 E2]]. split; [auto|].
  exists (m1 ++ m2). now rewrite E2, E1, app_assoc.
Qed.

Lemma monotone_ret {A} (a : A) : monotone (ret a).
Proof. intros c. apply extends_refl. Qed.

Lemma monotone_lift {A} (x : Completion A) : monotone (lift x).
Proof. intros c. apply extends_refl. Qed.

Lemma monotone_hbind {A B} (h : Handler A) (k : A -> Handler B) :
  monotone h -> (forall a, monotone (k a)) -> monotone (hbind h k).
Proof.
  intros Hh Hk c. unfold hbind. specialize (Hh c).
  destruct (h c) as [[a|e] c']; simpl in *; [|exact Hh].
  eapply extends_trans; [exact Hh | apply Hk].
Qed.

Lemma monotone_htry {A} (h : Handler A) (k : string -> Handler A) :
  monotone h -> (forall e, monotone (k e)) -> monotone (htry h k).
Proof.
  intros Hh Hk c. unfold htry. specialize (Hh c).
  destruct (h c) as [[a|e] c']; simpl in *; [exact Hh|].
  eapply extends_trans; [exact Hh | apply Hk].
Qed.

Lemma monotone_push v : monotone (push v).
Proof. intros c. split; simpl; [auto | now exists [v]]. Qed.

Lemma monotone_clearTimeout : monotone clearTimeout.
Proof. intros c. split; simpl; [auto | exists []; now rewrite app_nil_r]. Qed.

Lemma monotone_ws_close : monotone ws_close.
Proof. intros c. split; simpl; [auto | exists []; now rewrite app_nil_r]. Qed.

Lemma monotone_ws_send v : monotone (ws_send v).
Proof. intros c. split; simpl; [auto | exists []; now rewrite app_nil_r]. Qed.

Lemma monotone_settle s : monotone (settle s).
Proof.
  intros c. unfold settle; simpl.
  destruct (settlement c) eqn:E; split; simpl; try congruence; auto;
    exists []; now rewrite app_nil_r.
Qed.

Lemma monotone_if {A} (b : bool) (h1 h2 : Handler A) :
  monotone h1 -> monotone h2 -> monotone (if b then h1 else h2).
Proof. destruct b; auto. Qed.

Create HintDb handlers.
#[local] Hint Resolve monotone_ret monotone_lift monotone_push monotone_clearTimeout
  monotone_ws_close monotone_ws_send monotone_settle : handlers.

Ltac monotone_steps :=
  repeat first
    [ apply monotone_hbind; [|intros ?]
    | apply monotone_htry; [|intros ?]
    | apply monotone_if
    | solve [unfold resolve_servers, reject; auto with handlers] ].

Lemma monotone_on_message subId parsed : monotone (on_message subId parsed).
Proof. unfold on_message, on_message_try. monotone_steps. Qed.

Lemma monotone_on_timeout : monotone on_timeout.
Proof.
  intros c. unfold on_timeout. destruct (timerArmed c); [|apply extends_refl].
  split; simpl.
  - intros s Hs. rewrite Hs. reflexivity.
  - exists []; rewrite app_nil_r. destruct (settlement c); reflexivity.
Qed.

Lemma monotone_dispatch subId e : monotone (dispatch subId e).
Proof.
  destruct e; simpl.
  - unfold on_open. monotone_steps.
  - apply monotone_on_message.
  - unfold on_error. monotone_steps.
  - unfold on_close. monotone_steps.
  - apply monotone_on_timeout.
Qed.

Lemma monotone_run subId events : monotone (run subId events).
Proof.
  induction events as [|e events IH]; simpl.
  - apply monotone_ret.
  - apply monotone_hbind; [apply monotone_dispatch | intros _; exact IH].
Qed.

Lemma promise_pending c : promise c = Pending -> settlement c = None.
Proof. unfold promise. destruct (settlement c) as [[|r]|]; intros H; try discriminate; reflexivity. Qed.

Lemma run_cons subId e events c :
  snd (run subId (e :: events) c) = snd (run subId events (snd (dispatch subId e c))).
Proof.
  simpl. unfold hbind. pose proof (dispatch_returns subId e c) as H.
  destruct (dispatch subId e c) as [r c']. simpl in H. now subst r.
Qed.

Lemma on_close_pending c :
  settlement c = None ->
  settlement (snd (on_close c)) = Some Resolved /\ servers (snd (on_close c)) = servers c.
Proof. intros H. unfold on_close, hbind; simpl. now rewrite H. Qed.

Lemma on_error_pending message c :
  settlement c = None ->
  settlement (snd (on_error message c))
    = Some (Rejected (String.append "WebSocket error: " message)).
Proof. intros H. unfold on_error, hbind; simpl. now rewrite H. Qed.

(** C1, as the code has it: while the promise is pending, an unsolicited
    close resolves it with the array [servers], which holds the records
    accumulated so far (and only grows afterwards); a transport error
    rejects it, and the orchestrator's [catch] turns the rejection into an
    empty list; the wrapped promise never rejects. *)
Theorem close_resolves_error_rejects (subId : string) (events : list WsEvent) :
  promise (queryRelay subId events) = Pending ->
  promise (queryRelay subId (events ++ [Close]))
    = Fulfilled (servers (queryRelay subId events)) /\
  (forall later, exists more,
      promise (queryRelay subId (events ++ Close :: later))
        = Fulfilled (servers (queryRelay subId events) ++ more)) /\
  (forall message later,
      promise (queryRelay subId (events ++ Error message :: later))
        = RejectedWith (String.append "WebSocket error: " message) /\
      catch_empty (promise (queryRelay subId (events ++ Error message :: later)))
        = Fulfilled []) /\
  (forall anyEvents reason,
      catch_empty (promise (queryRelay subId anyEvents)) <> RejectedWith reason).
Proof.
  intros Hp. apply promise_pending in Hp.
  set (c := queryRelay subId events) in *.
  destruct (on_close_pending c Hp) as [Hcs Hcv].
  assert (Herr : forall message later,
             promise (queryRelay subId (events ++ Error message :: later))
             = RejectedWith (String.append "WebSocket error: " message)).
  { intros message later. rewrite queryRelay_app, run_cons. fold c. simpl dispatch.
    destruct (monotone_run subId later (snd (on_error message c))) as [Hs _].
    unfold promise. now rewrite (Hs _ (on_error_pending message c Hp)). }
  split; [|split; [|split]].
  - rewrite queryRelay_app, run_cons. fold c.
    change (promise (snd (on_close c)) = Fulfilled (servers c)).
    unfold promise. now rewrite Hcs, Hcv.
  - intros later. rewrite queryRelay_app, run_cons. fold c. simpl dispatch.
    destruct (monotone_run subId later (snd (on_close c))) as [Hs [more Hm]].
    exists more. unfold promise. now rewrite (Hs _ Hcs), Hm, Hcv.
  - intros message later. rewrite Herr. split; reflexivity.
  - intros anyEvents reason. destruct (promise (queryRelay subId anyEvents)); discriminate.
Qed.

Lemma close_resolves_error_rejects_witness :
  promise (queryRelay "blossom-abc" (frames_example ++ [Close]))
    = Fulfilled (servers (queryRelay "blossom-abc" frames_example)).
Proof.
  apply (close_resolves_error_rejects "blossom-abc" frames_example). reflexivity.
Defined.

(** C1 as stated fails: one record has been accumulated when the socket
    reports an error; the promise is rejected, not resolved with that
    record, and the orchestrator receives the empty list. *)
Lemma error_rejects_with_records_dropped :
  promise (queryRelay "blossom-abc" frames_example) = Pending /\
  servers (queryRelay "blossom-abc" frames_example) <> [] /\
  promise (queryRelay "blossom-abc" (frames_example ++ [Error "ECONNRESET"]))
    = RejectedWith "WebSocket error: ECONNRESET" /\
  catch_empty (promise (queryRelay "blossom-abc" (frames_example ++ [Error "ECONNRESET"])))
    = Fulfilled [].
Proof. repeat split; try reflexivity. discriminate. Qed.

(** C7: the parser returns [null] or a record for every value whatever its
    shape, and no sequence of socket callbacks, whatever the frames decode
    to, ends in a throw. *)
Theorem parse_never_throws :
  (forall event,
      Parser.parseBlossomServer event = Normal JNull \/
      exists fields, Parser.parseBlossomServer event = Normal (JObj fields)) /\
  (forall subId parsed c, fst (on_message subId parsed c) = Normal tt) /\
  (forall subId events c, fst (run subId events c) = Normal tt).
Proof.
  split; [|split].
  - intros event. destruct (parse_cases event) as [H|(s & _ & fields & H)]; [now left|].
    right. eexists. exact H.
  - apply on_message_returns.
  - apply run_returns.
Qed.

End RelayClientInvariants.

(** ** Relay pool *)
Section OrchestratorFacts.
Import Orchestrator LoopSpec.

Variable limit : nat.
Variable relays : list JSValue.
Hypothesis limit_positive : 0 < limit.

Lemma slice_length i : length (slice i (i + limit) relays) <= limit.
Proof.
  unfold slice. replace (i + limit - i) with limit by lia. apply firstn_le_length.
Qed.

Lemma slice_nonempty i : i < length relays -> 0 < length (slice i (i + limit) relays).
Proof.
  intros H. unfold slice. rewrite length_firstn, length_skipn. lia.
Qed.

Lemma slice_then_rest i :
  slice i (i + limit) relays ++ skipn (i + limit) relays = skipn i relays.
Proof.
  unfold slice. replace (i + limit - i) with limit by lia.
  rewrite (Nat.add_comm i limit), <- skipn_skipn. apply firstn_skipn.
Qed.

Lemma firstn_then_slice i :
  firstn i relays ++ slice i (i + limit) relays = firstn (i + limit) relays.
Proof.
  unfold slice. replace (i + limit - i) with limit by lia.
  generalize relays. induction i as [|i IH]; intros l; simpl; [reflexivity|].
  destruct l as [|x l]; simpl; [now rewrite firstn_nil|]. now rewrite IH.
Qed.

(** With enough fuel the loop ends, and its batches are the consecutive
    slices from [i] on. *)
Lemma batches_from_chunks fuel : forall i,
  length relays - i <= fuel ->
  exists bs,
    batches_from fuel limit i relays = Some bs /\
    concat bs = skipn i relays /\
    forall k b, nth_error bs k = Some b ->
      b = slice (i + k * limit) (i + k * limit + limit) relays /\
      0 < length b <= limit.
Proof.
  induction fuel as [|fuel IH]; intros i Hfuel.
  - exists []. simpl. destruct (Nat.ltb_spec i (length relays)) as [Hlt|Hge]; [lia|].
    repeat split.
    + now rewrite skipn_all2.
    + destruct k; discriminate.
    + destruct k; discriminate.
    + destruct k; discriminate.
  - simpl. destruct (Nat.ltb_spec i (length relays)) as [Hlt|Hge].
    + destruct (IH (i + limit)) as (bs & Hbs & Hcat & Hnth); [lia|].
      exists (slice i (i + limit) relays :: bs). rewrite Hbs. simpl.
      split; [reflexivity|]. split.
      * rewrite Hcat. apply slice_then_rest.
      * intros [|k] b Hk; simpl in Hk.
        -- injection Hk as <-. rewrite Nat.add_0_r.
           split; [reflexivity|]. split; [now apply slice_nonempty | apply slice_length].
        -- destruct (Hnth k b Hk) as [-> Hlen]. split; [|exact Hlen].
           f_equal; lia.
    + exists []. repeat split.
      * now rewrite skipn_all2.
      * destruct k; discriminate.
      * destruct k; discriminate.
      * destruct k; discriminate.
Qed.

Lemma loop_invariant_step s s' :
  loop_invariant limit relays s -> step limit relays s s' -> loop_invariant limit relays s'.
Proof.
  intros (Hlen & Hidle & Hq) Hstep. destruct Hstep as [s Ha Hi|s before relay after Ha Hp|s Ha Hp];
    unfold loop_invariant; simpl.
  - rewrite (Hidle Ha). simpl.
    split; [apply slice_length|]. split; [discriminate|].
    rewrite Hq, Ha. apply firstn_then_slice.
  - split; [|split; [discriminate|now rewrite Hq, Ha]].
    rewrite Hp, length_app in Hlen. simpl in Hlen. rewrite length_app. lia.
  - rewrite Hp. split; [simpl; lia|]. split; [reflexivity|]. now rewrite Hq, Ha.
Qed.

Lemma loop_invariant_reachable s : reachable limit relays s -> loop_invariant limit relays s.
Proof.
  induction 1 as [|s s' _ IH Hstep].
  - unfold loop_invariant; simpl. repeat split; lia.
  - now apply (loop_invariant_step s).
Qed.

End OrchestratorFacts.

Section OrchestratorClaims.
Import Orchestrator LoopSpec.

(** C9: for a positive concurrency limit the loop ends, its batches are
    the consecutive slices of the relay list, each of at most [limit]
    relays; a batch is launched only when no query of the previous one is
    pending, and at no time are more than [limit] queries pending. *)
Theorem pending_at_most_limit (limit : nat) (relays : list JSValue) :
  0 < limit ->
  (exists bs,
      batches limit relays = Some bs /\
      concat bs = relays /\
      forall k b, nth_error bs k = Some b ->
        b = slice (k * limit) (k * limit + limit) relays /\ 0 < length b <= limit) /\
  (forall s, reachable limit relays s ->
      length (pending s) <= limit /\
      (awaiting s = false -> pending s = []) /\
      queried s = firstn (if awaiting s then index s + limit else index s) relays).
Proof.
  intros Hpos. split.
  - destruct (batches_from_chunks limit relays Hpos (length relays) 0) as (bs & Hbs & Hcat & Hnth);
      [lia|].
    exists bs. repeat split; auto; now destruct (Hnth k b H).
  - intros s Hs. now apply loop_invariant_reachable.
Qed.

End OrchestratorClaims.

Section OrchestratorWitness.
Import Orchestrator LoopSpec Examples.

Lemma pending_at_most_limit_witness :
  (exists bs,
      batches concurrency eight_relays = Some bs /\
      concat bs = eight_relays /\
      forall k b, nth_error bs k = Some b ->
        b = slice (k * concurrency) (k * concurrency + concurrency) eight_relays /\
        0 < length b <= concurrency) /\
  (forall s, reachable concurrency eight_relays s ->
      length (pending s) <= concurrency /\
      (awaiting s = false -> pending s = []) /\
      queried s
        = firstn (if awaiting s then index s + concurrency else index s) eight_relays).
Proof. apply (pending_at_most_limit concurrency eight_relays). unfold concurrency. lia. Defined.

Example batches_of_eight :
  batches concurrency eight_relays
    = Some [map JStr ["wss://r1"; "wss://r2"; "wss://r3"; "wss://r4"; "wss://r5"; "wss://r6"];
            map JStr ["wss://r7"; "wss://r8"]].
Proof. reflexivity. Qed.

End OrchestratorWitness.

(** ** Relay selection *)
Section SessionFacts.
Import Session SessionSpec Examples.

Lemma filtered_sampled online relay :
  In relay (filter (fun relay => negb (core_includes relay)) (filter is_wss online)) ->
  sampled_relay relay.
Proof.
  intros H. apply filter_In in H. destruct H as [H Hcore].
  apply filter_In in H. destruct H as [_ Hwss].
  destruct relay; simpl in Hwss; try discriminate.
  exists s. repeat split; auto.
  intros Hin. apply negb_true_iff in Hcore.
  assert (core_includes (JStr s) = true); [|congruence].
  apply existsb_exists. exists s. split; [exact Hin | apply String.eqb_refl].
Qed.

Lemma In_firstn {A} n (l : list A) x : In x (firstn n l) -> In x l.
Proof.
  revert l. induction n as [|n IH]; intros [|y l]; simpl; try tauto.
  intros [H|H]; [now left | right; now apply IH].
Qed.

Lemma allRelays_cases shuffle b :
  (exists online,
      b = Response true (Normal (JArr online)) /\
      allRelays shuffle b
        = map JStr coreRelays ++
          Orchestrator.slice 0 maxAdditional
            (shuffle (filter (fun relay => negb (core_includes relay))
                             (filter is_wss online)))) \/
  (~ bootstrap_succeeded b /\ allRelays shuffle b = map JStr coreRelays).
Proof.
  destruct b as [message|ok json].
  - right. split; [intros [o H]; discriminate | reflexivity].
  - destruct ok; [|right; split; [intros [o H]; discriminate | reflexivity]].
    destruct json as [online|e]; [|right; split; [intros [o H]; discriminate | reflexivity]].
    destruct online as [ | | | | |online| ];
      try (right; split; [intros [o H]; discriminate | reflexivity]).
    left. exists online. split; reflexivity.
Qed.

(** C10: the relay list is the four core relays followed by at most 16
    sampled relays, each a [wss://] string that is not a core relay, so at
    most 20 relays are searched; unless the directory answers with an
    array, the list is the four core relays alone. *)
Theorem relay_list_core_then_sampled
        (shuffle : list JSValue -> list JSValue) (b : Bootstrap) :
  (forall l, Permutation l (shuffle l)) ->
  (exists sampled,
      allRelays shuffle b = map JStr coreRelays ++ sampled /\
      length sampled <= 16 /\
      Forall sampled_relay sampled) /\
  length coreRelays = 4 /\
  relaysSearched shuffle b <= 20 /\
  (~ bootstrap_succeeded b -> allRelays shuffle b = map JStr coreRelays).
Proof.
  intros Hperm.
  assert (Hcore : exists sampled,
             allRelays shuffle b = map JStr coreRelays ++ sampled /\
             length sampled <= 16 /\ Forall sampled_relay sampled).
  { destruct (allRelays_cases shuffle b) as [(online & _ & Heq)|[_ Heq]].
    - eexists. split; [exact Heq|]. split.
      + unfold Orchestrator.slice. apply firstn_le_length.
      + apply Forall_forall. intros relay Hin.
        unfold Orchestrator.slice in Hin. simpl skipn in Hin. apply In_firstn in Hin.
        apply (Permutation_in _ (Permutation_sym (Hperm _))) in Hin.
        now apply (filtered_sampled online).
    - exists []. rewrite app_nil_r. split; [exact Heq|]. split; [simpl; lia | constructor]. }
  split; [exact Hcore|]. split; [reflexivity|]. split.
  - destruct Hcore as (sampled & Heq & Hlen & _).
    unfold relaysSearched. rewrite Heq, length_app, length_map. simpl. lia.
  - intros Hfail.
    destruct (allRelays_cases shuffle b) as [(online & Hb & _)|[_ Heq]]; [|exact Heq].
    exfalso. apply Hfail. now exists online.
Qed.

Lemma relay_list_core_then_sampled_witness :
  (exists sampled,
      allRelays (@rev JSValue) directory_answer = map JStr coreRelays ++ sampled /\
      length sampled <= 16 /\
      Forall sampled_relay sampled) /\
  length coreRelays = 4 /\
  relaysSearched (@rev JSValue) directory_answer <= 20 /\
  (~ bootstrap_succeeded directory_answer ->
   allRelays (@rev JSValue) directory_answer = map JStr coreRelays).
Proof.
  apply (relay_list_core_then_sampled (@rev JSValue) directory_answer).
  intros l. apply Permutation_rev.
Defined.

Example relays_of_directory_answer :
  allRelays (@rev JSValue) directory_answer
    = map JStr (coreRelays ++ ["wss://c.example"; "wss://a.example"]).
Proof. reflexivity. Qed.

Example relays_when_fetch_fails shuffle :
  allRelays shuffle (FetchThrows "fetch failed") = map JStr coreRelays.
Proof. reflexivity. Qed.

End SessionFacts.

(** ** Merge, deduplication and sort *)
Section MergeFacts.
Import Merge MergeSpec Examples.

Lemma merge_results_from results m :
  fold_left merge_relay results m = merge_list (concat results) m.
Proof.
  revert m. induction results as [|r results IH]; intros m; simpl; [reflexivity|].
  unfold merge_list. rewrite fold_left_app. apply IH.
Qed.

Lemma merge_results_concat results :
  merge_results results = merge_list (concat results) [].
Proof. apply merge_results_from. Qed.

(** *** The map *)

Lemma map_get_In k v m : map_get k m = Some v -> In (k, v) m.
Proof.
  induction m as [|[k' v'] m IH]; simpl; [discriminate|].
  destruct (k' =? k) eqn:E.
  - apply String.eqb_eq in E. intros [= ->]. left. now subst.
  - intros H. right. now apply IH.
Qed.

Lemma map_get_None k m : map_get k m = None -> ~ In k (keys m).
Proof.
  induction m as [|[k' v'] m IH]; simpl; [tauto|].
  destruct (k' =? k) eqn:E; [discriminate|].
  apply String.eqb_neq in E. intros H [Hk|Hk]; [contradiction|]. now apply IH.
Qed.

Lemma In_map_get k v m : NoDup (keys m) -> In (k, v) m -> map_get k m = Some v.
Proof.
  induction m as [|[k' v'] m IH]; simpl; [tauto|].
  intros Hnd H. inversion Hnd as [|? ? Hk' Hnd']; subst.
  destruct H as [[= -> ->]|H].
  - now rewrite String.eqb_refl.
  - destruct (k' =? k) eqn:E; [|now apply IH].
    apply String.eqb_eq in E. subst k'. exfalso. apply Hk'.
    apply (in_map fst) in H. exact H.
Qed.

Lemma map_get_set_same k v m : map_get k (map_set k v m) = Some v.
Proof.
  induction m as [|[k' v'] m IH]; simpl.
  - now rewrite String.eqb_refl.
  - destruct (k' =? k) eqn:E; simpl; rewrite E; [reflexivity | exact IH].
Qed.

Lemma map_get_set_other k k' v m : k <> k' -> map_get k' (map_set k v m) = map_get k' m.
Proof.
  intros Hne. induction m as [|[k0 v0] m IH]; simpl.
  - apply String.eqb_neq in Hne. now rewrite Hne.
  - destruct (k0 =? k) eqn:E; simpl.
    + apply String.eqb_eq in E. subst k0. apply String.eqb_neq in Hne. now rewrite Hne.
    + now rewrite IH.
Qed.

Lemma keys_set_present k v m : In k (keys m) -> keys (map_set k v m) = keys m.
Proof.
  induction m as [|[k0 v0] m IH]; simpl; [tauto|].
  intros H. destruct (k0 =? k) eqn:E; simpl; [reflexivity|].
  apply String.eqb_neq in E. destruct H as [H|H]; [contradiction|]. now rewrite IH.
Qed.

Lemma keys_set_absent k v m : ~ In k (keys m) -> keys (map_set k v m) = keys m ++ [k].
Proof.
  induction m as [|[k0 v0] m IH]; simpl; [reflexivity|].
  intros H. destruct (k0 =? k) eqn:E; simpl.
  - apply String.eqb_eq in E. tauto.
  - rewrite IH; tauto.
Qed.

Lemma keyed_set v m : keyed m -> keyed (map_set (url v) v m).
Proof.
  intros [Hnd Hk]. split.
  - destruct (in_dec string_dec (url v) (keys m)) as [Hin|Hout].
    + now rewrite keys_set_present.
    + rewrite keys_set_absent by assumption.
      apply NoDup_rev in Hnd. rewrite <- (rev_involutive (keys m ++ [url v])).
      apply NoDup_rev. rewrite rev_app_distr. simpl. constructor; [|exact Hnd].
      now rewrite <- in_rev.
  - clear Hnd. induction m as [|[k0 v0] m IH]; simpl.
    + intros k v' [[= <- <-]|[]]. reflexivity.
    + destruct (k0 =? url v) eqn:E; simpl.
      * apply String.eqb_eq in E. intros k v' [[= <- <-]|H]; [now symmetry|].
        apply Hk. now right.
      * intros k v' [[= <- <-]|H]; [apply Hk; now left|].
        apply IH; [|exact H]. intros k1 v1 H1. apply Hk. now right.
Qed.

Lemma keyed_merge_server m s : keyed m -> keyed (merge_server m s).
Proof.
  intros H. unfold merge_server.
  destruct (map_get (url s) m) as [e|]; [|now apply keyed_set].
  destruct (created_at s >? created_at e)%Z; [now apply keyed_set | exact H].
Qed.

Lemma keyed_merge_list l m : keyed m -> keyed (merge_list l m).
Proof.
  revert m. induction l as [|s l IH]; intros m H; simpl; [exact H|].
  apply IH. now apply keyed_merge_server.
Qed.

Lemma keyed_empty : keyed [].
Proof. split; [constructor | intros k v []]. Qed.

Lemma keys_urls m : keyed m -> map url (map_values m) = keys m.
Proof.
  intros [_ Hk]. unfold map_values, keys. rewrite map_map.
  apply map_ext_in. intros [k v] H. simpl. now apply Hk.
Qed.

Lemma values_without_url u m :
  (forall k v, In (k, v) m -> url v = k) -> ~ In u (keys m) ->
  filter (fun x => url x =? u) (map_values m) = [].
Proof.
  induction m as [|[k v] m IH]; simpl; intros Hk Hout; [reflexivity|].
  rewrite (Hk k v (or_introl eq_refl)).
  destruct (k =? u) eqn:E.
  - apply String.eqb_eq in E. tauto.
  - apply IH; [intros; apply Hk; now right | tauto].
Qed.

(** The record stored for a URL is the only one with that URL among the
    values. *)
Lemma values_at_url u r m :
  keyed m -> map_get u m = Some r ->
  filter (fun x => url x =? u) (map_values m) = [r].
Proof.
  intros [Hnd Hk]. induction m as [|[k v] m IH]; simpl; [discriminate|].
  inversion Hnd as [|? ? Hout Hnd']; subst.
  assert (Hk' : forall k v, In (k, v) m -> url v = k) by (intros; apply Hk; now right).
  rewrite (Hk k v (or_introl eq_refl)).
  destruct (k =? u) eqn:E.
  - intros [= ->]. f_equal. apply String.eqb_eq in E. subst k.
    now apply values_without_url.
  - intros H. now apply IH.
Qed.

(** *** Which record is kept *)

Lemma winner_In l u r : winner l u r -> In r l.
Proof. intros (b & a & -> & _). apply in_elt. Qed.

Lemma winner_max l u r x :
  winner l u r -> In x l -> url x = u -> (created_at x <= created_at r)%Z.
Proof.
  intros (b & a & -> & Hu & Hb & Ha) Hx Hxu.
  apply in_app_or in Hx. destruct Hx as [Hx|[<-|Hx]].
  - specialize (Hb x Hx Hxu). lia.
  - lia.
  - now apply Ha.
Qed.

Lemma winner_snoc_other l u r s :
  winner l u r -> (url s = u -> (created_at s <= created_at r)%Z) -> winner (l ++ [s]) u r.
Proof.
  intros (b & a & -> & Hu & Hb & Ha) Hs.
  exists b, (a ++ [s]). repeat split; auto.
  - now rewrite <- app_assoc.
  - intros x Hx Hxu. apply in_app_or in Hx. destruct Hx as [Hx|[<-|[]]]; auto.
Qed.

Lemma winner_snoc_new l s :
  (forall x, In x l -> url x = url s -> (created_at x < created_at s)%Z) ->
  winner (l ++ [s]) (url s) s.
Proof.
  intros H. exists l, []. repeat split; auto. intros x [].
Qed.

Lemma tracks_step l m s : tracks l m -> tracks (l ++ [s]) (merge_server m s).
Proof.
  intros Ht u. unfold merge_server.
  pose proof (Ht (url s)) as Hs. pose proof (Ht u) as Hu.
  destruct (String.eqb_spec (url s) u) as [<-|Hne].
  - destruct (map_get (url s) m) as [e|] eqn:Hg.
    + destruct (created_at s >? created_at e)%Z eqn:Hgt.
      * rewrite map_get_set_same. apply winner_snoc_new.
        intros x Hx Hxu. pose proof (winner_max _ _ _ _ Hs Hx Hxu). lia.
      * rewrite Hg. apply winner_snoc_other; [exact Hs|]. intros _. lia.
    + rewrite map_get_set_same. apply winner_snoc_new.
      intros x Hx Hxu. exfalso. exact (Hs x Hx Hxu).
  - assert (Hsame : map_get u
             (match map_get (url s) m with
              | Some existing =>
                  if (created_at s >? created_at existing)%Z
                  then map_set (url s) s m else m
              | None => map_set (url s) s m
              end) = map_get u m).
    { destruct (map_get (url s) m) as [e|].
      - destruct (created_at s >? created_at e)%Z; [now apply map_get_set_other | reflexivity].
      - now apply map_get_set_other. }
    rewrite Hsame. destruct (map_get u m) as [r|].
    + apply winner_snoc_other; [exact Hu | intros; contradiction].
    + intros x Hx. apply in_app_or in Hx. destruct Hx as [Hx|[<-|[]]]; auto.
Qed.

Lemma tracks_merge_list l0 l m : tracks l0 m -> tracks (l0 ++ l) (merge_list l m).
Proof.
  revert l0 m. induction l as [|s l IH]; intros l0 m H; simpl.
  - now rewrite app_nil_r.
  - replace (l0 ++ s :: l) with ((l0 ++ [s]) ++ l) by now rewrite <- app_assoc.
    apply IH. now apply tracks_step.
Qed.

Lemma tracks_merge l : tracks l (merge_list l []).
Proof. apply (tracks_merge_list [] l []). intros u x []. Qed.

Lemma filter_perm {A} (f : A -> bool) (l l' : list A) :
  Permutation l l' -> Permutation (filter f l) (filter f l').
Proof.
  induction 1 as [|x l l' _ IH|x y l|l l' l'' _ IH1 _ IH2]; simpl.
  - constructor.
  - destruct (f x); [now constructor | exact IH].
  - destruct (f x), (f y); try reflexivity. apply perm_swap.
  - now transitivity (filter f l').
Qed.

Lemma concat_perm {A} (ls ls' : list (list A)) :
  Permutation ls ls' -> Permutation (concat ls) (concat ls').
Proof.
  induction 1 as [|x l l' _ IH|x y l|l l' l'' _ IH1 _ IH2]; simpl.
  - constructor.
  - now apply Permutation_app_head.
  - rewrite !app_assoc. apply Permutation_app_tail, Permutation_app_comm.
  - now transitivity (concat l').
Qed.

Lemma keyed_merge_results results : keyed (merge_results results).
Proof. rewrite merge_results_concat. apply keyed_merge_list, keyed_empty. Qed.

(** *** The sort *)

Lemma sort_insert_perm cmp x l : Permutation (x :: l) (sort_insert cmp x l).
Proof.
  induction l as [|y l IH]; simpl; [reflexivity|].
  destruct (cmp x y >? 0)%Z; [|reflexivity].
  rewrite perm_swap. now constructor.
Qed.

Lemma js_sort_perm cmp l : Permutation l (js_sort cmp l).
Proof.
  induction l as [|x l IH]; simpl; [reflexivity|].
  rewrite <- sort_insert_perm. now constructor.
Qed.

Lemma merge_urls_NoDup results : NoDup (map url (merge results)).
Proof.
  unfold merge.
  pose proof (keyed_merge_results results) as Hk.
  eapply Permutation_NoDup.
  - apply Permutation_map, js_sort_perm.
  - rewrite keys_urls by exact Hk. apply Hk.
Qed.

(** The record stored for a URL is the winner among the input records,
    and the only record of the output with that URL. *)
Lemma merge_stored results u r :
  map_get u (merge_results results) = Some r ->
  winner (concat results) u r /\
  filter (fun x => url x =? u) (merge results) = [r].
Proof.
  intros Hg. split.
  - pose proof (tracks_merge (concat results) u) as Ht.
    rewrite <- merge_results_concat, Hg in Ht. exact Ht.
  - pose proof (values_at_url u r _ (keyed_merge_results results) Hg) as Hv.
    apply Permutation_length_1_inv. rewrite <- Hv.
    apply filter_perm, js_sort_perm.
Qed.

Lemma merge_stores_input_urls results u :
  In u (map url (concat results)) ->
  exists r, map_get u (merge_results results) = Some r.
Proof.
  intros Hin. apply in_map_iff in Hin. destruct Hin as (x & Hxu & Hx).
  pose proof (tracks_merge (concat results) u) as Ht.
  rewrite <- merge_results_concat in Ht.
  destruct (map_get u (merge_results results)) as [r|]; [now exists r|].
  exfalso. exact (Ht x Hx Hxu).
Qed.

Lemma same_list_two_splits {A} (b b' : list A) r r' a a' :
  b ++ r :: a = b' ++ r' :: a' ->
  (b = b' /\ r = r' /\ a = a') \/ (In r b' /\ In r' a) \/ (In r' b /\ In r a').
Proof.
  revert b'. induction b as [|x b IH]; intros [|z b'] H; simpl in H.
  - injection H as -> ->. now left.
  - injection H as -> ->. right; left. split; [now left | apply in_elt].
  - injection H as -> <-. right; right. split; [now left | apply in_elt].
  - injection H as -> H. destruct (IH _ H) as [(-> & -> & ->)|[[H1 H2]|[H1 H2]]].
    + now left.
    + right; left. split; [now right | exact H2].
    + right; right. split; [now right | exact H2].
Qed.

Lemma NoDup_map_inv' {A B} (f : A -> B) l : NoDup (map f l) -> NoDup l.
Proof.
  induction l as [|x l IH]; simpl; intros H; [constructor|].
  inversion H as [|? ? Hx Hnd]; subst. constructor; [|now apply IH].
  intros Hin. apply Hx. now apply in_map.
Qed.

(** The scenario of the specification. *)
Example merge_scenario :
  sortedServers scenario
    = ["https://url1.example"; "https://url3.example"; "https://url2.example"].
Proof. reflexivity. Qed.

End MergeFacts.

(** * Further properties of the code *)

(** ** Relay client: the remaining paths *)
Section RelayClientMore.
Import RelayClient ClientSpec FrameSpec Examples.

Lemma is_for_event_not_eose subId message :
  is_for "EVENT" subId message = Normal true ->
  is_for "EOSE" subId message = Normal false.
Proof.
  unfold is_for. destruct (get_index message 0) as [m0|e]; simpl; [|discriminate].
  destruct (strict_eq_str m0 "EVENT") eqn:E; [|discriminate].
  destruct m0; simpl in E; try discriminate.
  apply String.eqb_eq in E. subst s. reflexivity.
Qed.

Lemma on_message_frame (subId : string) (parsed : Completion JSValue) (c : Client) :
  on_message subId parsed c = (Normal tt, apply_frame (classify subId parsed) c).
Proof.
  unfold on_message, htry, on_message_try, classify.
  destruct parsed as [message|e]; [|reflexivity].
  unfold hbind at 1. simpl.
  unfold hbind at 1. unfold lift at 1.
  destruct (is_for "EVENT" subId message) as [[|]|e] eqn:Hev; [| |reflexivity].
  - rewrite (is_for_event_not_eose _ _ Hev).
    unfold hbind, lift, ret, apply_frame, push.
    destruct (get_index message 2) as [nostrEvent|e]; simpl.
    + destruct (Parser.parseBlossomServer nostrEvent) as [server|e]; [|reflexivity].
      destruct (truthy server); reflexivity.
    + reflexivity.
  - unfold hbind, lift, ret. simpl.
    destruct (is_for "EOSE" subId message) as [[|]|e]; try reflexivity.
    simpl. unfold settle; simpl. destruct (settlement c); reflexivity.
Qed.


(** X1: the message callback never throws and does exactly what the kind
    of the frame says: an event frame for the subscription appends the
    parsed record if there is one, an end-of-stored-events frame for the
    subscription clears the timer, closes the socket and resolves, and any
    other frame (undecodable data, another subscription, another verb)
    leaves the connection as it is. *)
Theorem on_message_by_frame (subId : string) (parsed : Completion JSValue) (c : Client) :
  on_message subId parsed c = (Normal tt, apply_frame (classify subId parsed) c).
Proof. apply on_message_frame. Qed.

Lemma queryRelay_snoc subId events e :
  queryRelay subId (events ++ [e]) = snd (dispatch subId e (queryRelay subId events)).
Proof. rewrite queryRelay_app, run_cons. reflexivity. Qed.

Lemma dispatch_message subId parsed c :
  snd (dispatch subId (Message parsed) c) = apply_frame (classify subId parsed) c.
Proof. simpl. now rewrite on_message_frame. Qed.

Lemma timer_follows_promise_dispatch subId e c :
  timer_follows_promise c -> timer_follows_promise (snd (dispatch subId e c)).
Proof.
  unfold timer_follows_promise. intros H. destruct e.
  - exact H.
  - rewrite dispatch_message. unfold apply_frame.
    destruct (classify subId parsed) as [ev| |]; [| |exact H].
    + destruct (Parser.parseBlossomServer ev) as [v|e]; [|exact H].
      destruct (truthy v); exact H.
    + simpl. destruct (settlement c); reflexivity.
  - simpl. unfold on_error, hbind; simpl. destruct (settlement c); reflexivity.
  - simpl. unfold on_close, hbind; simpl. destruct (settlement c); reflexivity.
  - simpl. unfold on_timeout. destruct (timerArmed c) eqn:Ht; [|simpl; now rewrite Ht].
    unfold hbind; simpl. destruct (settlement c); reflexivity.
Qed.

Lemma timer_follows_promise_run subId events c :
  timer_follows_promise c -> timer_follows_promise (snd (run subId events c)).
Proof.
  revert c. induction events as [|e events IH]; intros c H; [exact H|].
  rewrite run_cons. apply IH. now apply timer_follows_promise_dispatch.
Qed.

Lemma timer_follows_promise_queryRelay subId events :
  timer_follows_promise (queryRelay subId events).
Proof. apply timer_follows_promise_run. reflexivity. Qed.

(** X2: on every connection, whatever callbacks have run, the timer is
    armed exactly while the promise is pending: every path that settles
    the promise disarms the timer, and nothing else does. *)
Theorem timer_armed_iff_pending (subId : string) (events : list WsEvent) :
  timerArmed (queryRelay subId events) = true <->
  promise (queryRelay subId events) = Pending.
Proof.
  pose proof (timer_follows_promise_queryRelay subId events) as H.
  unfold timer_follows_promise in H. unfold promise. rewrite H.
  destruct (settlement (queryRelay subId events)) as [[|r]|]; split; intros E;
    try discriminate; reflexivity.
Qed.

(** X3: the promise settles once: after it is resolved or rejected, no
    later callback changes how it settled. *)
Theorem settles_once (subId : string) (events later : list WsEvent) (s : Settlement) :
  settlement (queryRelay subId events) = Some s ->
  settlement (queryRelay subId (events ++ later)) = Some s.
Proof.
  intros H. rewrite queryRelay_app.
  destruct (monotone_run subId later (queryRelay subId events)) as [Hs _]. now apply Hs.
Qed.

Lemma settles_once_witness :
  settlement (queryRelay "blossom-abc" ((frames_example ++ [Close]) ++ [Error "late"; Timeout]))
    = Some Resolved.
Proof. apply (settles_once "blossom-abc" (frames_example ++ [Close])). reflexivity. Defined.

(** X4: an end-of-stored-events frame for the subscription, received
    while the promise is pending, resolves it with the records accumulated
    so far, disarms the timer and closes the socket. *)
Theorem eose_resolves (subId : string) (events : list WsEvent) (parsed : Completion JSValue) :
  promise (queryRelay subId events) = Pending ->
  classify subId parsed = EoseFrame ->
  promise (queryRelay subId (events ++ [Message parsed]))
    = Fulfilled (servers (queryRelay subId events)) /\
  timerArmed (queryRelay subId (events ++ [Message parsed])) = false /\
  closeCalls (queryRelay subId (events ++ [Message parsed]))
    = S (closeCalls (queryRelay subId events)).
Proof.
  intros Hp Hf. apply promise_pending in Hp.
  rewrite queryRelay_snoc, dispatch_message, Hf.
  unfold promise; simpl. rewrite Hp. auto.
Qed.

Lemma eose_resolves_witness :
  promise (queryRelay "blossom-abc"
             (frames_example ++ [Message (Normal (JArr [JStr "EOSE"; JStr "blossom-abc"]))]))
    = Fulfilled (servers (queryRelay "blossom-abc" frames_example)).
Proof.
  apply (eose_resolves "blossom-abc" frames_example); reflexivity.
Defined.

(** X5: when the timer fires while the promise is pending, the socket is
    closed and the promise resolves with the records accumulated so far;
    once the promise has settled the timer callback cannot run any more,
    and a timeout changes nothing. *)
Theorem timeout_resolves (subId : string) (events : list WsEvent) :
  (promise (queryRelay subId events) = Pending ->
   promise (queryRelay subId (events ++ [Timeout]))
     = Fulfilled (servers (queryRelay subId events)) /\
   closeCalls (queryRelay subId (events ++ [Timeout]))
     = S (closeCalls (queryRelay subId events))) /\
  (promise (queryRelay subId events) <> Pending ->
   queryRelay subId (events ++ [Timeout]) = queryRelay subId events).
Proof.
  pose proof (timer_follows_promise_queryRelay subId events) as Ht.
  unfold timer_follows_promise in Ht.
  rewrite queryRelay_snoc. simpl. unfold on_timeout. split.
  - intros Hp. apply promise_pending in Hp. rewrite Hp in Ht. rewrite Ht.
    unfold hbind, promise; simpl. rewrite Hp. auto.
  - intros Hp. destruct (settlement (queryRelay subId events)) as [s|] eqn:Hs.
    + rewrite Ht. reflexivity.
    + exfalso. apply Hp. unfold promise. now rewrite Hs.
Qed.

Lemma timeout_resolves_witness :
  promise (queryRelay "blossom-abc" (frames_example ++ [Timeout]))
    = Fulfilled (servers (queryRelay "blossom-abc" frames_example)).
Proof.
  apply (proj1 (timeout_resolves "blossom-abc" frames_example)). reflexivity.
Defined.


Lemma parsed_record_https event v :
  Parser.parseBlossomServer event = Normal v -> truthy v = true -> https_record v.
Proof.
  intros Hp Ht.
  destruct (parse_cases event) as [Hnull|(s & (dTag & _ & _ & Hne & Hpre) & fields & Hrec)];
    rewrite Hp in *.
  - injection Hnull as ->. discriminate.
  - injection Hrec as ->. now exists s, fields.
Qed.

Lemma servers_dispatch subId e c :
  servers (snd (dispatch subId e c)) = servers c \/
  exists nostrEvent v,
    is_event_frame subId e = true /\
    Parser.parseBlossomServer nostrEvent = Normal v /\ truthy v = true /\
    servers (snd (dispatch subId e c)) = servers c ++ [v].
Proof.
  destruct e.
  - now left.
  - rewrite dispatch_message. unfold is_event_frame, apply_frame.
    destruct (classify subId parsed) as [ev| |]; [| now left | now left].
    destruct (Parser.parseBlossomServer ev) as [v|e] eqn:Hp; [|now left].
    destruct (truthy v) eqn:Ht; [|now left].
    right. exists ev, v. auto.
  - left. simpl. unfold on_error, hbind; simpl. destruct (settlement c); reflexivity.
  - left. simpl. unfold on_close, hbind; simpl. destruct (settlement c); reflexivity.
  - left. simpl. unfold on_timeout. destruct (timerArmed c); [|reflexivity].
    unfold hbind; simpl. destruct (settlement c); reflexivity.
Qed.

(** X6: every element a connection accumulates is a record built by the
    parser: an object whose [url] is a non-empty string starting with
    [https://].  Nothing else is ever pushed. *)
Theorem accumulated_are_https_records (subId : string) (events : list WsEvent) :
  Forall https_record (servers (queryRelay subId events)).
Proof.
  induction events as [|e events IH] using rev_ind.
  - constructor.
  - rewrite queryRelay_snoc.
    destruct (servers_dispatch subId e (queryRelay subId events))
      as [E|(ev & v & _ & Hp & Ht & E)]; rewrite E; [exact IH|].
    apply Forall_app. split; [exact IH|]. constructor; [|constructor].
    now apply (parsed_record_https ev).
Qed.

(** X7: a connection accumulates at most one record per event frame of
    its subscription; without such a frame it accumulates nothing. *)
Theorem at_most_one_record_per_event_frame (subId : string) (events : list WsEvent) :
  length (servers (queryRelay subId events)) <= length (filter (is_event_frame subId) events).
Proof.
  induction events as [|e events IH] using rev_ind.
  - simpl. lia.
  - rewrite queryRelay_snoc, filter_app, length_app.
    destruct (servers_dispatch subId e (queryRelay subId events))
      as [E|(ev & v & Hf & _ & _ & E)]; rewrite E.
    + lia.
    + rewrite length_app. simpl. rewrite Hf. simpl. lia.
Qed.

(** X8: a frame that cannot be decoded, and a decoded frame whose second
    element is not the subscription id, leave the connection unchanged:
    the client never acts on another subscription's events or
    end-of-stored-events. *)
Theorem other_frames_ignored (subId : string) (c : Client) :
  (forall err, on_message subId (Throw err) c = (Normal tt, c)) /\
  (forall message,
      get_index message 1 <> Normal (JStr subId) ->
      on_message subId (Normal message) c = (Normal tt, c)).
Proof.
  split; [reflexivity|].
  intros message Hm. rewrite on_message_frame.
  assert (Hk : forall kind, is_for kind subId message <> Normal true).
  { intros kind. unfold is_for.
    destruct (get_index message 0) as [m0|e]; simpl; [|discriminate].
    destruct (strict_eq_str m0 kind); [|discriminate].
    destruct (get_index message 1) as [m1|e]; simpl; [|discriminate].
    destruct m1; simpl; try discriminate.
    destruct (String.eqb_spec s subId) as [->|Hne]; [|discriminate].
    now contradiction Hm. }
  unfold classify.
  destruct (is_for "EVENT" subId message) as [[|]|e] eqn:Hev;
    [now contradiction (Hk "EVENT") | | reflexivity].
  destruct (is_for "EOSE" subId message) as [[|]|e] eqn:Heo;
    [now contradiction (Hk "EOSE") | reflexivity | reflexivity].
Qed.

Lemma other_frames_ignored_witness :
  on_message "blossom-abc" (Normal (JArr [JStr "EOSE"; JStr "blossom-xyz"])) initial
    = (Normal tt, initial).
Proof.
  apply (proj2 (other_frames_ignored "blossom-abc" initial)). discriminate.
Defined.

(** X9: the only frames the client ever sends are subscription requests
    for kind 36363 with limit 500, one for each time the socket opens. *)
Theorem sends_only_subscriptions (subId : string) (events : list WsEvent) :
  sent (queryRelay subId events)
    = repeat (subscription subId) (length (filter is_open events)).
Proof.
  induction events as [|e events IH] using rev_ind.
  - reflexivity.
  - rewrite queryRelay_snoc, filter_app, length_app, repeat_app, <- IH.
    destruct e; simpl.
    + reflexivity.
    + rewrite on_message_frame. simpl. rewrite app_nil_r. unfold apply_frame.
      destruct (classify subId parsed) as [ev| |]; try reflexivity.
      destruct (Parser.parseBlossomServer ev) as [v|err]; [|reflexivity].
      destruct (truthy v); reflexivity.
    + rewrite app_nil_r. unfold on_error, hbind; simpl.
      destruct (settlement (queryRelay subId events)); reflexivity.
    + rewrite app_nil_r. unfold on_close, hbind; simpl.
      destruct (settlement (queryRelay subId events)); reflexivity.
    + rewrite app_nil_r. unfold on_timeout.
      destruct (timerArmed (queryRelay subId events)); [|reflexivity].
      unfold hbind; simpl. destruct (settlement (queryRelay subId events)); reflexivity.
Qed.

(** X10: the promise resolves with the array [servers] itself, so a record
    parsed from an event frame that arrives after the promise resolved is
    still appended to the list the caller was given. *)
Theorem late_event_grows_resolved_list
        (subId : string) (events : list WsEvent) (nostrEvent v : JSValue)
        (resolved : list JSValue) :
  promise (queryRelay subId events) = Fulfilled resolved ->
  Parser.parseBlossomServer nostrEvent = Normal v ->
  truthy v = true ->
  promise (queryRelay subId
             (events ++ [Message (Normal (JArr [JStr "EVENT"; JStr subId; nostrEvent]))]))
    = Fulfilled (resolved ++ [v]).
Proof.
  intros Hp Hv Ht. rewrite queryRelay_snoc, dispatch_message.
  assert (Hc : classify subId (Normal (JArr [JStr "EVENT"; JStr subId; nostrEvent]))
               = EventFrame nostrEvent).
  { unfold classify, is_for. simpl. now rewrite String.eqb_refl. }
  rewrite Hc. unfold apply_frame. rewrite Hv, Ht.
  unfold promise in *. simpl.
  destruct (settlement (queryRelay subId events)) as [[|r]|]; try discriminate.
  now injection Hp as ->.
Qed.

Lemma late_event_grows_resolved_list_witness :
  promise (queryRelay "blossom-abc"
             ([Open; Timeout] ++
              [Message (Normal (JArr [JStr "EVENT"; JStr "blossom-abc"; event_example]))]))
    = Fulfilled ([] ++ [JObj [("url", JStr "https://x.example"); ("name", JNull);
                              ("description", JNull); ("pubkey", JStr "pk");
                              ("created_at", JNum 100); ("event_id", JStr "e1")]]).
Proof.
  apply (late_event_grows_resolved_list "blossom-abc" [Open; Timeout] event_example);
    reflexivity.
Defined.

End RelayClientMore.

(** ** Event parser: what a returned record says about the event *)
Section ParserMore.
Import Parser EventSpec Examples.

Lemma find_elem_normal marker tags v :
  find_elem (tag_is marker) tags = Normal v ->
  v = match first_tag marker tags with Some t => t | None => JUndefined end.
Proof.
  intros H. destruct (find_elem_first_tag marker tags) as [[e He]|Hn]; congruence.
Qed.

(** X11: whenever the parser returns a record, the event has a first
    ["d"] tag whose value is a non-empty string starting with [https://],
    and the record is exactly: that value as [url], the values of the
    first ["name"] and ["description"] tags ([null] without such a tag),
    and the event's [pubkey], [created_at] and [id].  No other field of
    the event (kind, content, signature) is looked at. *)
Theorem parse_record_reflects_event (event v : JSValue) :
  parseBlossomServer event = Normal v ->
  v <> JNull ->
  exists s,
    valid_url event s /\
    v = JObj [("url", JStr s);
              ("name", metadata "name" (event_tags event));
              ("description", metadata "description" (event_tags event));
              ("pubkey", event_field event "pubkey");
              ("created_at", event_field event "created_at");
              ("event_id", event_field event "id")].
Proof.
  unfold parseBlossomServer, parseBlossomServer_try, valid_url, metadata, event_field, event_tags.
  intros H Hnn.
  assert (Hnull : forall P : Prop, Normal JNull = Normal v -> P).
  { intros P E. injection E as <-. now contradiction Hnn. }
  destruct (get_field event "tags") as [tags|e] eqn:Htags; simpl in H; [|now apply Hnull].
  destruct tags as [ | | | | |tags| ]; simpl in H; try now apply Hnull.
  destruct (find_elem (tag_is "d") tags) as [dTag|e] eqn:Hd; simpl in H; [|now apply Hnull].
  apply find_elem_normal in Hd.
  destruct (first_tag "d" tags) as [d|] eqn:Hfd; subst dTag; simpl in H; [|now apply Hnull].
  rewrite (has_marker_truthy "d" d (first_tag_has_marker _ _ _ Hfd)) in H; simpl in H.
  rewrite (found_value _ _ _ Hfd) in H; simpl in H.
  destruct (truthy (tag_value d)) eqn:Htr; simpl in H; [|now apply Hnull].
  destruct (tag_value d) as [ | | | |s| | ] eqn:Hv; simpl in H; try now apply Hnull.
  destruct (String.prefix "https://" s) eqn:Hp; simpl in H; [|now apply Hnull].
  destruct (find_elem (tag_is "name") tags) as [nameTag|e] eqn:Hn;
    simpl in H; [|now apply Hnull].
  destruct (find_elem (tag_is "description") tags) as [descTag|e] eqn:Hde;
    simpl in H; [|now apply Hnull].
  apply find_elem_normal in Hn. apply find_elem_normal in Hde.
  exists s. split.
  { exists d. repeat split; auto. intros ->. discriminate. }
  subst nameTag descTag.
  destruct (first_tag "name" tags) as [nt|] eqn:Hfn;
  destruct (first_tag "description" tags) as [dt|] eqn:Hfde;
  repeat match goal with
  | Hf : first_tag ?m tags = Some ?t |- _ =>
      rewrite (has_marker_truthy m t (first_tag_has_marker _ _ _ Hf)) in H;
      rewrite (found_value _ _ _ Hf) in H; clear Hf
  end;
  simpl in H;
  destruct event; simpl in *; try discriminate; now injection H as <-.
Qed.

Lemma parse_record_reflects_event_witness :
  exists s,
    valid_url event_example s /\
    JObj [("url", JStr "https://x.example"); ("name", JNull); ("description", JNull);
          ("pubkey", JStr "pk"); ("created_at", JNum 100); ("event_id", JStr "e1")]
    = JObj [("url", JStr s);
            ("name", metadata "name" (event_tags event_example));
            ("description", metadata "description" (event_tags event_example));
            ("pubkey", event_field event_example "pubkey");
            ("created_at", event_field event_example "created_at");
            ("event_id", event_field event_example "id")].
Proof.
  apply (parse_record_reflects_event event_example); [reflexivity | discriminate].
Defined.

End ParserMore.

(** ** Merge: what the output contains and in which order *)
Section MergeMore.
Import Merge MergeSpec OrderSpec Examples.

Lemma In_values_stored m r :
  keyed m -> In r (map_values m) -> map_get (url r) m = Some r.
Proof.
  intros [Hnd Hk] Hin. apply in_map_iff in Hin. destruct Hin as ([k v] & E & Hin).
  simpl in E. subst v. rewrite (Hk _ _ Hin). now apply In_map_get.
Qed.

Lemma In_merge_values results r :
  In r (merge results) <-> In r (map_values (merge_results results)).
Proof.
  unfold merge. split; apply Permutation_in; [apply Permutation_sym|]; apply js_sort_perm.
Qed.

Lemma merge_from_input results r : In r (merge results) -> In r (concat results).
Proof.
  intros H. apply In_merge_values in H.
  apply (In_values_stored _ _ (keyed_merge_results results)) in H.
  apply merge_stored in H. destruct H as [Hw _]. now apply (winner_In _ (url r)).
Qed.

Lemma merge_urls results u :
  In u (map url (merge results)) <-> In u (map url (concat results)).
Proof.
  split.
  - intros H. apply in_map_iff in H. destruct H as (r & <- & Hr).
    apply in_map. now apply merge_from_input.
  - intros H. destruct (merge_stores_input_urls results u H) as [r Hg].
    destruct (merge_stored results u r Hg) as [(b & a & _ & Hu & _) _].
    apply in_map_iff. exists r. split; [exact Hu|].
    apply In_merge_values. apply map_get_In in Hg. now apply (in_map snd) in Hg.
Qed.

(** X12: the merge neither invents nor loses servers: every record of the
    output is one of the input records, and a URL is in the output list
    exactly when some relay returned a record with it. *)
Theorem merge_same_urls (results : list (list ServerRecord)) :
  (forall r, In r (merge results) -> In r (concat results)) /\
  (forall u, In u (sortedServers results) <-> In u (map url (concat results))).
Proof. split; [apply merge_from_input | apply merge_urls]. Qed.

(** X13: the number of servers reported is the number of distinct URLs
    among all records returned by the relays. *)
Theorem merge_counts_distinct_urls (results : list (list ServerRecord)) :
  length (sortedServers results)
    = length (nodup string_dec (map url (concat results))).
Proof.
  apply Permutation_length, NoDup_Permutation.
  - apply merge_urls_NoDup.
  - apply NoDup_nodup.
  - intros u. unfold sortedServers. rewrite merge_urls. symmetry. apply nodup_In.
Qed.

(** X14: the output is empty exactly when no relay returned a record, as
    when every relay failed or timed out without data. *)
Theorem merge_empty_iff (results : list (list ServerRecord)) :
  sortedServers results = [] <-> concat results = [].
Proof.
  split; intros H.
  - destruct (concat results) as [|r l] eqn:E; [reflexivity|]. exfalso.
    assert (Hin : In (url r) (map url (concat results))) by (rewrite E; now left).
    apply merge_urls in Hin. unfold sortedServers in H. rewrite H in Hin. exact Hin.
  - unfold sortedServers, merge. rewrite merge_results_concat, H. reflexivity.
Qed.

(** X15: only the order of the records matters, not how they are grouped
    into per-relay lists: inputs with the same concatenation merge to the
    same output. *)
Theorem merge_ignores_grouping (results results' : list (list ServerRecord)) :
  concat results = concat results' -> merge results = merge results'.
Proof.
  intros H. unfold merge. now rewrite !merge_results_concat, H.
Qed.

Lemma merge_ignores_grouping_witness :
  merge scenario = merge [concat scenario].
Proof. apply merge_ignores_grouping. reflexivity. Defined.

Lemma keys_merge_server m s :
  keys (merge_server m s)
    = if existsb (String.eqb (url s)) (keys m) then keys m else keys m ++ [url s].
Proof.
  unfold merge_server. destruct (map_get (url s) m) as [e|] eqn:Hg.
  - assert (Hin : In (url s) (keys m)).
    { apply map_get_In in Hg. now apply (in_map fst) in Hg. }
    assert (Hex : existsb (String.eqb (url s)) (keys m) = true).
    { apply existsb_exists. exists (url s). split; [exact Hin | apply String.eqb_refl]. }
    rewrite Hex. destruct (created_at s >? created_at e)%Z; [|reflexivity].
    now apply keys_set_present.
  - pose proof (map_get_None _ _ Hg) as Hout.
    assert (Hex : existsb (String.eqb (url s)) (keys m) = false).
    { apply not_true_is_false. intros H. apply existsb_exists in H.
      destruct H as (k & Hk & E). apply String.eqb_eq in E. now subst k. }
    rewrite Hex. now apply keys_set_absent.
Qed.

Lemma filter_filter {A} (f g : A -> bool) l :
  filter f (filter g l) = filter (fun x => g x && f x) l.
Proof.
  induction l as [|x l IH]; simpl; [reflexivity|].
  destruct (g x); simpl; [destruct (f x)|]; now rewrite IH.
Qed.

Lemma keys_merge_list l : forall m,
  keys (merge_list l m)
    = keys m ++ filter (fun u => negb (existsb (String.eqb u) (keys m)))
                       (first_seen (map url l)).
Proof.
  induction l as [|s l IH]; intros m.
  - simpl. now rewrite app_nil_r.
  - change (merge_list (s :: l) m) with (merge_list l (merge_server m s)).
    rewrite IH, keys_merge_server. simpl map. simpl first_seen. simpl filter.
    destruct (existsb (String.eqb (url s)) (keys m)) eqn:Hex; simpl.
    + f_equal. rewrite filter_filter. apply filter_ext_in. intros u _.
      destruct (existsb (String.eqb u) (keys m)) eqn:Hu; simpl.
      * now rewrite andb_false_r.
      * rewrite andb_true_r. symmetry. apply negb_true_iff.
        destruct (String.eqb_spec u (url s)) as [->|]; [congruence | reflexivity].
    + rewrite <- app_assoc. simpl. f_equal. f_equal.
      rewrite filter_filter. apply filter_ext_in. intros u _.
      rewrite existsb_app. simpl.
      destruct (existsb (String.eqb u) (keys m)), (u =? url s); reflexivity.
Qed.

(** X17: the map holds the URLs in the order in which they first appear in
    the input, whichever record wins for each. *)
Theorem map_order_is_first_appearance (results : list (list ServerRecord)) :
  map url (map_values (merge_results results)) = first_seen (map url (concat results)).
Proof.
  rewrite keys_urls by apply keyed_merge_results.
  rewrite merge_results_concat, keys_merge_list. simpl.
  induction (first_seen (map url (concat results))) as [|u l IH]; simpl; congruence.
Qed.

End MergeMore.

(** ** Relay pool: results, number of batches, end of the loop *)
Section OrchestratorMore.
Import Orchestrator LoopSpec Aggregation Examples.

Lemma await_batch_app {R} (settled : nat -> JSValue -> R) n l1 l2 :
  await_batch settled n (l1 ++ l2)
    = await_batch settled n l1 ++ await_batch settled (n + length l1) l2.
Proof.
  revert n. induction l1 as [|x l1 IH]; intros n; simpl.
  - now rewrite Nat.add_0_r.
  - rewrite IH. now replace (n + S (length l1)) with (S n + length l1) by lia.
Qed.

Lemma await_batch_length {R} (settled : nat -> JSValue -> R) n l :
  length (await_batch settled n l) = length l.
Proof.
  revert n. induction l as [|x l IH]; intros n; simpl; [reflexivity | now rewrite IH].
Qed.

Lemma collect_from {R} (settled : nat -> JSValue -> R) bs : forall acc n,
  fold_left
    (fun (acc : list R * nat) batch =>
       (fst acc ++ await_batch settled (snd acc) batch, snd acc + length batch))
    bs (acc, n)
  = (acc ++ await_batch settled n (concat bs), n + length (concat bs)).
Proof.
  induction bs as [|b bs IH]; intros acc n; simpl.
  - now rewrite app_nil_r, Nat.add_0_r.
  - rewrite IH, await_batch_app, length_app, <- app_assoc. f_equal. lia.
Qed.

Lemma batches_exist limit relays :
  0 < limit ->
  exists bs,
    batches limit relays = Some bs /\ concat bs = relays /\
    forall k b, nth_error bs k = Some b ->
      b = slice (k * limit) (k * limit + limit) relays /\ 0 < length b <= limit.
Proof.
  intros Hpos.
  destruct (batches_from_chunks limit relays Hpos (length relays) 0)
    as (bs & Hbs & Hcat & Hnth); [lia|].
  exists bs. repeat split; auto; now destruct (Hnth k b H).
Qed.

(** X19: batching does not show in the results: for any positive limit
    the loop ends with exactly one result per relay, in the order of the
    relay list. *)
Theorem results_in_relay_order {R} (settled : nat -> JSValue -> R)
        (limit : nat) (relays : list JSValue) :
  0 < limit ->
  exists bs,
    batches limit relays = Some bs /\
    collect settled bs = await_batch settled 0 relays /\
    length (collect settled bs) = length relays.
Proof.
  intros Hpos. destruct (batches_exist limit relays Hpos) as (bs & Hbs & Hcat & _).
  exists bs. split; [exact Hbs|].
  assert (E : collect settled bs = await_batch settled 0 relays).
  { unfold collect. rewrite collect_from. simpl. now rewrite Hcat. }
  split; [exact E|]. rewrite E. apply await_batch_length.
Qed.

Lemma results_in_relay_order_witness :
  exists bs,
    batches concurrency eight_relays = Some bs /\
    collect (fun n relay => (n, relay)) bs
      = await_batch (fun n relay => (n, relay)) 0 eight_relays /\
    length (collect (fun n relay => (n, relay)) bs) = length eight_relays.
Proof.
  apply (results_in_relay_order (fun n relay => (n, relay)) concurrency eight_relays).
  unfold concurrency. lia.
Defined.

Lemma concat_length_le {A} (bs : list (list A)) limit :
  (forall b, In b bs -> length b <= limit) -> length (concat bs) <= length bs * limit.
Proof.
  induction bs as [|b bs IH]; intros H; simpl; [lia|].
  rewrite length_app. specialize (H b (or_introl eq_refl)) as Hb.
  assert (length (concat bs) <= length bs * limit); [|lia].
  apply IH. intros x Hx. apply H. now right.
Qed.

Lemma batches_count limit relays bs :
  0 < limit -> batches limit relays = Some bs ->
  length bs = (length relays + limit - 1) / limit.
Proof.
  intros Hpos Hbs.
  destruct (batches_exist limit relays Hpos) as (bs' & Hbs' & Hcat & Hnth).
  rewrite Hbs in Hbs'. injection Hbs' as <-.
  assert (Hup : length relays <= length bs * limit).
  { rewrite <- Hcat at 1. apply concat_length_le. intros b Hb.
    apply In_nth_error in Hb. destruct Hb as [k Hk]. now destruct (Hnth k b Hk). }
  assert (Hlow : bs <> [] -> (length bs - 1) * limit < length relays).
  { intros Hne.
    destruct (nth_error bs (length bs - 1)) as [b|] eqn:Hk.
    - destruct (Hnth _ b Hk) as [-> [Hlen _]]. unfold slice in Hlen.
      rewrite length_firstn, length_skipn in Hlen. lia.
    - apply nth_error_None in Hk. destruct bs; [congruence | simpl in Hk; lia]. }
  destruct bs as [|b0 bs0].
  - simpl in *. assert (length relays = 0) by lia.
    rewrite H. simpl. symmetry. apply Nat.div_small. lia.
  - specialize (Hlow ltac:(discriminate)).
    assert (HL : 1 <= length (b0 :: bs0)) by (simpl; lia).
    set (L := length (b0 :: bs0)) in *.
    apply (Nat.div_unique _ _ _ (length relays + limit - 1 - limit * L)); nia.
Qed.

(** X20: the loop runs as many batches as the relay list needs, the
    number of relays divided by the limit, rounded up; none for an empty
    list. *)
Theorem number_of_batches (limit : nat) (relays : list JSValue) :
  0 < limit ->
  exists bs,
    batches limit relays = Some bs /\
    length bs = (length relays + limit - 1) / limit.
Proof.
  intros Hpos. destruct (batches_exist limit relays Hpos) as (bs & Hbs & _).
  exists bs. split; [exact Hbs | now apply batches_count].
Qed.

Lemma number_of_batches_witness :
  exists bs,
    batches concurrency eight_relays = Some bs /\
    length bs = (length eight_relays + concurrency - 1) / concurrency.
Proof. apply number_of_batches. unfold concurrency. lia. Defined.

(** X21: the loop cannot get stuck before its end: in every reachable
    state either a step is possible or the loop has left, and when it has
    left, every relay has been queried once, in the order of the list. *)
Theorem loop_runs_to_completion (limit : nat) (relays : list JSValue) (s : Loop) :
  0 < limit ->
  reachable limit relays s ->
  (exists s', step limit relays s s') \/
  (awaiting s = false /\ length relays <= index s /\ queried s = relays).
Proof.
  intros Hpos Hr.
  pose proof (loop_invariant_reachable limit relays Hpos s Hr) as (_ & _ & Hq).
  destruct (awaiting s) eqn:Ha.
  - left. destruct (pending s) as [|relay rest] eqn:Hp.
    + eexists. now apply step_next.
    + eexists. apply (step_settle limit relays s [] relay rest); assumption.
  - destruct (Nat.lt_ge_cases (index s) (length relays)) as [Hlt|Hge].
    + left. eexists. now apply step_launch.
    + right. repeat split; auto. rewrite Hq. now apply firstn_all2.
Qed.

Lemma loop_runs_to_completion_witness :
  (exists s', step concurrency eight_relays start s') \/
  (awaiting start = false /\ length eight_relays <= index start /\
   queried start = eight_relays).
Proof. apply loop_runs_to_completion; [unfold concurrency; lia | constructor]. Defined.

End OrchestratorMore.

(** ** Relay selection and the whole session *)
Section SessionMore.
Import Session SessionSpec Orchestrator Aggregation RelayCount Examples.

Lemma allRelays_answer shuffle online :
  allRelays shuffle (Response true (Normal (JArr online)))
    = map JStr coreRelays ++
      firstn maxAdditional
        (shuffle (filter (fun relay => negb (core_includes relay)) (filter is_wss online))).
Proof. reflexivity. Qed.

(** X22: when the directory answers with an array, the sample is taken
    from the eligible entries of that array only, and its size is the
    smaller of 16 and the number of eligible entries; when there are at
    most 16 of them, all are taken. *)
Theorem sample_size (shuffle : list JSValue -> list JSValue) (online : list JSValue) :
  (forall l, Permutation l (shuffle l)) ->
  exists sampled,
    allRelays shuffle (Response true (Normal (JArr online)))
      = map JStr coreRelays ++ sampled /\
    length sampled
      = min 16 (length (filter (fun relay => negb (core_includes relay))
                               (filter is_wss online))) /\
    (forall relay, In relay sampled -> In relay online) /\
    (length (filter (fun relay => negb (core_includes relay)) (filter is_wss online)) <= 16 ->
     Permutation (filter (fun relay => negb (core_includes relay)) (filter is_wss online))
                 sampled).
Proof.
  intros Hperm. rewrite allRelays_answer.
  set (eligible := filter (fun relay => negb (core_includes relay)) (filter is_wss online)).
  exists (firstn maxAdditional (shuffle eligible)).
  split; [reflexivity|]. split; [|split].
  - rewrite length_firstn, <- (Permutation_length (Hperm eligible)). reflexivity.
  - intros relay Hin. apply In_firstn in Hin.
    apply (Permutation_in _ (Permutation_sym (Hperm _))) in Hin.
    unfold eligible in Hin. apply filter_In in Hin. destruct Hin as [Hin _].
    apply filter_In in Hin. tauto.
  - intros Hle. rewrite firstn_all2; [apply Hperm|].
    rewrite <- (Permutation_length (Hperm eligible)). exact Hle.
Qed.

Lemma sample_size_witness :
  exists sampled,
    allRelays (@rev JSValue)
      (Response true (Normal (JArr [JStr "wss://a.example"; JStr "wss://nos.lol"; JNum 3])))
      = map JStr coreRelays ++ sampled /\
    length sampled
      = min 16 (length (filter (fun relay => negb (core_includes relay))
                               (filter is_wss [JStr "wss://a.example"; JStr "wss://nos.lol"; JNum 3]))) /\
    (forall relay, In relay sampled ->
        In relay [JStr "wss://a.example"; JStr "wss://nos.lol"; JNum 3]) /\
    (length (filter (fun relay => negb (core_includes relay))
                    (filter is_wss [JStr "wss://a.example"; JStr "wss://nos.lol"; JNum 3])) <= 16 ->
     Permutation (filter (fun relay => negb (core_includes relay))
                         (filter is_wss [JStr "wss://a.example"; JStr "wss://nos.lol"; JNum 3]))
                 sampled).
Proof. apply sample_size. intros l. apply Permutation_rev. Defined.

Lemma filter_implied {A} (f g : A -> bool) (l : list A) :
  (forall x, f x = true -> g x = true) -> filter f (filter g l) = filter f l.
Proof.
  intros H. induction l as [|x l IH]; simpl; [reflexivity|].
  destruct (g x) eqn:Hg; simpl.
  - destruct (f x); now rewrite IH.
  - destruct (f x) eqn:Hf; [|exact IH]. rewrite (H x Hf) in Hg. discriminate.
Qed.

(** X23: candidates are only filtered against the core relays, not against
    each other: when at most 16 entries of the directory are eligible, a
    [wss://] relay that is not a core relay is in the relay list as many
    times as the directory lists it, so a relay listed twice is queried
    twice. *)
Theorem directory_duplicates_kept
        (shuffle : list JSValue -> list JSValue) (online : list JSValue) (s : string) :
  (forall l, Permutation l (shuffle l)) ->
  length (filter (fun relay => negb (core_includes relay)) (filter is_wss online)) <= 16 ->
  String.prefix "wss://" s = true ->
  ~ In s coreRelays ->
  occurrences s (allRelays shuffle (Response true (Normal (JArr online))))
    = occurrences s online.
Proof.
  intros Hperm Hle Hwss Hcore. rewrite allRelays_answer.
  set (eligible := filter (fun relay => negb (core_includes relay)) (filter is_wss online))
    in *.
  rewrite firstn_all2 by (rewrite <- (Permutation_length (Hperm eligible)); exact Hle).
  unfold occurrences. rewrite filter_app, length_app.
  assert (Hc0 : filter (fun v => strict_eq_str v s) (map JStr coreRelays) = []).
  { induction coreRelays as [|c l IH]; [reflexivity|]. simpl.
    destruct (String.eqb_spec c s) as [->|_].
    - exfalso. apply Hcore. now left.
    - apply IH. intros H. apply Hcore. now right. }
  rewrite Hc0. simpl.
  rewrite <- (Permutation_length (filter_perm _ _ _ (Hperm eligible))).
  unfold eligible. f_equal.
  assert (Hs : forall x, strict_eq_str x s = true -> x = JStr s).
  { intros x Hx. destruct x; simpl in Hx; try discriminate.
    apply String.eqb_eq in Hx. now subst. }
  rewrite filter_implied, filter_implied; [reflexivity| |].
  - intros x Hx. rewrite (Hs x Hx). exact Hwss.
  - intros x Hx. rewrite (Hs x Hx). apply negb_true_iff, not_true_is_false.
    intros H. apply existsb_exists in H. destruct H as (c & Hc & E).
    simpl in E. apply String.eqb_eq in E. now subst c.
Qed.

Lemma directory_duplicates_kept_witness :
  occurrences "wss://a.example"
    (allRelays (@rev JSValue)
       (Response true
          (Normal (JArr [JStr "wss://a.example"; JStr "wss://b.example";
                         JStr "wss://a.example"]))))
    = occurrences "wss://a.example"
        [JStr "wss://a.example"; JStr "wss://b.example"; JStr "wss://a.example"].
Proof.
  apply directory_duplicates_kept.
  - intros l. apply Permutation_rev.
  - simpl. lia.
  - reflexivity.
  - simpl. intros [H|[H|[H|[H|[]]]]]; discriminate.
Defined.

Lemma allRelays_length shuffle b :
  4 <= length (allRelays shuffle b) <= 20.
Proof.
  destruct (allRelays_cases shuffle b) as [(online & _ & E)|[_ E]]; rewrite E.
  - rewrite length_app, length_map. unfold slice.
    pose proof (firstn_le_length (maxAdditional - 0)
                  (skipn 0 (shuffle (filter (fun relay => negb (core_includes relay))
                                            (filter is_wss online))))) as H.
    simpl in *. lia.
  - rewrite length_map. simpl. lia.
Qed.

(** X24: whatever the directory answers and however the candidates are
    reordered, between 4 and 20 relays are queried, in at least one and at
    most four batches. *)
Theorem session_batches (shuffle : list JSValue -> list JSValue) (b : Bootstrap) :
  4 <= Session.relaysSearched shuffle b <= 20 /\
  exists bs,
    batches concurrency (allRelays shuffle b) = Some bs /\ 1 <= length bs <= 4.
Proof.
  pose proof (allRelays_length shuffle b) as Hlen.
  split; [exact Hlen|].
  assert (Hpos : 0 < concurrency) by (unfold concurrency; lia).
  destruct (batches_exist concurrency (allRelays shuffle b) Hpos) as (bs & Hbs & _).
  exists bs. split; [exact Hbs|].
  rewrite (batches_count _ _ _ Hpos Hbs). unfold concurrency. split.
  - apply Nat.div_le_lower_bound; lia.
  - apply Nat.lt_succ_r. apply Nat.Div0.div_lt_upper_bound. lia.
Qed.


End SessionMore.

(** * Merge by an integer key *)
Section TimedFacts.
Variable R : Type.
Variable url : R -> string.
Variable time : R -> Z.

Local Abbreviation map_get := (@Timed.map_get R).
Local Abbreviation map_set := (@Timed.map_set R).
Local Abbreviation map_values := (@Timed.map_values R).
Local Abbreviation merge_server := (Timed.merge_server url time).
Local Abbreviation merge_list := (Timed.merge_list url time).
Local Abbreviation sort_insert := (Timed.sort_insert time).
Local Abbreviation sort := (Timed.sort time).
Local Abbreviation merge := (Timed.merge url time).
Local Abbreviation keys := (@Timed.keys R).
Local Abbreviation keyed := (Timed.keyed url).
Local Abbreviation winner := (Timed.winner url time).
Local Abbreviation tracks := (Timed.tracks url time).
Local Abbreviation covers := (Timed.covers url time).
Local Abbreviation not_older := (Timed.not_older time).
Local Abbreviation newer := (Timed.newer time).
Local Abbreviation distinct_times := (Timed.distinct_times time).
Local Abbreviation ties_within_url := (Timed.ties_within_url url time).
Local Abbreviation newest_of := (Timed.newest_of url time).

(** *** The map *)

Lemma timed_map_get_In k v m : map_get k m = Some v -> In (k, v) m.
Proof.
  induction m as [|[k' v'] m IH]; simpl; [discriminate|].
  destruct (k' =? k) eqn:E.
  - apply String.eqb_eq in E. intros [= ->]. left. now subst.
  - intros H. right. now apply IH.
Qed.

Lemma timed_map_get_None k m : map_get k m = None -> ~ In k (keys m).
Proof.
  induction m as [|[k' v'] m IH]; simpl; [tauto|].
  destruct (k' =? k) eqn:E; [discriminate|].
  apply String.eqb_neq in E. intros H [Hk|Hk]; [contradiction|]. now apply IH.
Qed.

Lemma timed_In_map_get k v m : NoDup (keys m) -> In (k, v) m -> map_get k m = Some v.
Proof.
  induction m as [|[k' v'] m IH]; simpl; [tauto|].
  intros Hnd H. inversion Hnd as [|? ? Hk' Hnd']; subst.
  destruct H as [[= -> ->]|H].
  - now rewrite String.eqb_refl.
  - destruct (k' =? k) eqn:E; [|now apply IH].
    apply String.eqb_eq in E. subst k'. exfalso. apply Hk'.
    apply (in_map fst) in H. exact H.
Qed.

Lemma timed_map_get_set_same k v m : map_get k (map_set k v m) = Some v.
Proof.
  induction m as [|[k' v'] m IH]; simpl.
  - now rewrite String.eqb_refl.
  - destruct (k' =? k) eqn:E; simpl; rewrite E; [reflexivity | exact IH].
Qed.

Lemma timed_map_get_set_other k k' v m : k <> k' -> map_get k' (map_set k v m) = map_get k' m.
Proof.
  intros Hne. induction m as [|[k0 v0] m IH]; simpl.
  - apply String.eqb_neq in Hne. now rewrite Hne.
  - destruct (k0 =? k) eqn:E; simpl.
    + apply String.eqb_eq in E. subst k0. apply String.eqb_neq in Hne. now rewrite Hne.
    + now rewrite IH.
Qed.

Lemma timed_keys_set_present k v m : In k (keys m) -> keys (map_set k v m) = keys m.
Proof.
  induction m as [|[k0 v0] m IH]; simpl; [tauto|].
  intros H. destruct (k0 =? k) eqn:E; simpl; [reflexivity|].
  apply String.eqb_neq in E. destruct H as [H|H]; [contradiction|]. now rewrite IH.
Qed.

Lemma timed_keys_set_absent k v m : ~ In k (keys m) -> keys (map_set k v m) = keys m ++ [k].
Proof.
  induction m as [|[k0 v0] m IH]; simpl; [reflexivity|].
  intros H. destruct (k0 =? k) eqn:E; simpl.
  - apply String.eqb_eq in E. tauto.
  - rewrite IH; tauto.
Qed.

Lemma timed_keyed_set v m : keyed m -> keyed (map_set (url v) v m).
Proof.
  intros [Hnd Hk]. split.
  - destruct (in_dec string_dec (url v) (keys m)) as [Hin|Hout].
    + now rewrite timed_keys_set_present.
    + rewrite timed_keys_set_absent by assumption.
      apply NoDup_rev in Hnd. rewrite <- (rev_involutive (keys m ++ [url v])).
      apply NoDup_rev. rewrite rev_app_distr. simpl. constructor; [|exact Hnd].
      now rewrite <- in_rev.
  - clear Hnd. induction m as [|[k0 v0] m IH]; simpl.
    + intros k v' [[= <- <-]|[]]. reflexivity.
    + destruct (k0 =? url v) eqn:E; simpl.
      * apply String.eqb_eq in E. intros k v' [[= <- <-]|H]; [now symmetry|].
        apply Hk. now right.
      * intros k v' [[= <- <-]|H]; [apply Hk; now left|].
        apply IH; [|exact H]. intros k1 v1 H1. apply Hk. now right.
Qed.

Lemma timed_keyed_merge_server m s : keyed m -> keyed (merge_server m s).
Proof.
  intros H. unfold Timed.merge_server.
  destruct (map_get (url s) m) as [e|]; [|now apply timed_keyed_set].
  destruct (time s >? time e)%Z; [now apply timed_keyed_set | exact H].
Qed.

Lemma timed_keyed_merge_list l m : keyed m -> keyed (merge_list l m).
Proof.
  revert m. induction l as [|s l IH]; intros m H; simpl; [exact H|].
  apply IH. now apply timed_keyed_merge_server.
Qed.

Lemma timed_keyed_empty : keyed [].
Proof. split; [constructor | intros k v []]. Qed.

Lemma timed_keys_urls m : keyed m -> map url (map_values m) = keys m.
Proof.
  intros [_ Hk]. unfold Timed.map_values, Timed.keys. rewrite map_map.
  apply map_ext_in. intros [k v] H. simpl. now apply Hk.
Qed.

Lemma timed_values_without_url u m :
  (forall k v, In (k, v) m -> url v = k) -> ~ In u (keys m) ->
  filter (fun x => url x =? u) (map_values m) = [].
Proof.
  induction m as [|[k v] m IH]; simpl; intros Hk Hout; [reflexivity|].
  rewrite (Hk k v (or_introl eq_refl)).
  destruct (k =? u) eqn:E.
  - apply String.eqb_eq in E. tauto.
  - apply IH; [intros; apply Hk; now right | tauto].
Qed.

(** The record stored for a URL is the only one with that URL among the
    values. *)
Lemma timed_values_at_url u r m :
  keyed m -> map_get u m = Some r ->
  filter (fun x => url x =? u) (map_values m) = [r].
Proof.
  intros [Hnd Hk]. induction m as [|[k v] m IH]; simpl; [discriminate|].
  inversion Hnd as [|? ? Hout Hnd']; subst.
  assert (Hk' : forall k v, In (k, v) m -> url v = k) by (intros; apply Hk; now right).
  rewrite (Hk k v (or_introl eq_refl)).
  destruct (k =? u) eqn:E.
  - intros [= ->]. f_equal. apply String.eqb_eq in E. subst k.
    now apply timed_values_without_url.
  - intros H. now apply IH.
Qed.

(** *** Which record is kept *)

Lemma timed_winner_In l u r : winner l u r -> In r l.
Proof. intros (b & a & -> & _). apply in_elt. Qed.

Lemma timed_winner_max l u r x :
  winner l u r -> In x l -> url x = u -> (time x <= time r)%Z.
Proof.
  intros (b & a & -> & Hu & Hb & Ha) Hx Hxu.
  apply in_app_or in Hx. destruct Hx as [Hx|[<-|Hx]].
  - specialize (Hb x Hx Hxu). lia.
  - lia.
  - now apply Ha.
Qed.

Lemma timed_winner_snoc_other l u r s :
  winner l u r -> (url s = u -> (time s <= time r)%Z) -> winner (l ++ [s]) u r.
Proof.
  intros (b & a & -> & Hu & Hb & Ha) Hs.
  exists b, (a ++ [s]). repeat split; auto.
  - now rewrite <- app_assoc.
  - intros x Hx Hxu. apply in_app_or in Hx. destruct Hx as [Hx|[<-|[]]]; auto.
Qed.

Lemma timed_winner_snoc_new l s :
  (forall x, In x l -> url x = url s -> (time x < time s)%Z) ->
  winner (l ++ [s]) (url s) s.
Proof.
  intros H. exists l, []. repeat split; auto. intros x [].
Qed.

Lemma timed_tracks_step l m s : tracks l m -> tracks (l ++ [s]) (merge_server m s).
Proof.
  intros Ht u. unfold Timed.merge_server.
  pose proof (Ht (url s)) as Hs. pose proof (Ht u) as Hu.
  destruct (String.eqb_spec (url s) u) as [<-|Hne].
  - destruct (map_get (url s) m) as [e|] eqn:Hg.
    + destruct (time s >? time e)%Z eqn:Hgt.
      * rewrite timed_map_get_set_same. apply timed_winner_snoc_new.
        intros x Hx Hxu. pose proof (timed_winner_max _ _ _ _ Hs Hx Hxu). lia.
      * rewrite Hg. apply timed_winner_snoc_other; [exact Hs|]. intros _. lia.
    + rewrite timed_map_get_set_same. apply timed_winner_snoc_new.
      intros x Hx Hxu. exfalso. exact (Hs x Hx Hxu).
  - assert (Hsame : map_get u
             (match map_get (url s) m with
              | Some existing =>
                  if (time s >? time existing)%Z
                  then map_set (url s) s m else m
              | None => map_set (url s) s m
              end) = map_get u m).
    { destruct (map_get (url s) m) as [e|].
      - destruct (time s >? time e)%Z; [now apply timed_map_get_set_other | reflexivity].
      - now apply timed_map_get_set_other. }
    rewrite Hsame. destruct (map_get u m) as [r|].
    + apply timed_winner_snoc_other; [exact Hu | intros; contradiction].
    + intros x Hx. apply in_app_or in Hx. destruct Hx as [Hx|[<-|[]]]; auto.
Qed.

Lemma timed_tracks_merge_list l0 l m : tracks l0 m -> tracks (l0 ++ l) (merge_list l m).
Proof.
  revert l0 m. induction l as [|s l IH]; intros l0 m H; simpl.
  - now rewrite app_nil_r.
  - replace (l0 ++ s :: l) with ((l0 ++ [s]) ++ l) by now rewrite <- app_assoc.
    apply IH. now apply timed_tracks_step.
Qed.

Lemma timed_tracks_merge l : tracks l (merge_list l []).
Proof. apply (timed_tracks_merge_list [] l []). intros u x []. Qed.

(** *** The sort *)

Lemma timed_sort_insert_perm x l : Permutation (x :: l) (sort_insert x l).
Proof.
  induction l as [|y l IH]; simpl; [reflexivity|].
  destruct (time y - time x >? 0)%Z; [|reflexivity].
  rewrite perm_swap. now constructor.
Qed.

Lemma timed_js_sort_perm l : Permutation l (sort l).
Proof.
  induction l as [|x l IH]; simpl; [reflexivity|].
  rewrite <- timed_sort_insert_perm. now constructor.
Qed.

Lemma timed_sort_insert_sorted x l :
  StronglySorted not_older l -> StronglySorted not_older (sort_insert x l).
Proof.
  induction 1 as [|y l Hs IH Hall]; simpl.
  - repeat constructor.
  - destruct (time y - time x >? 0)%Z eqn:E.
    + constructor; [exact IH|].
      rewrite Forall_forall in *. intros z Hz.
      apply (Permutation_in _ (Permutation_sym (timed_sort_insert_perm _ _))) in Hz.
      destruct Hz as [<-|Hz]; [unfold Timed.not_older; lia | now apply Hall].
    + constructor; [now constructor|].
      constructor; [unfold Timed.not_older; lia|].
      rewrite Forall_forall in *. intros z Hz. specialize (Hall z Hz).
      unfold Timed.not_older in *. lia.
Qed.

Lemma timed_js_sort_sorted l : StronglySorted not_older (sort l).
Proof.
  induction l as [|x l IH]; simpl; [constructor | now apply timed_sort_insert_sorted].
Qed.

Lemma timed_merge_sorted l : StronglySorted not_older (merge l).
Proof. apply timed_js_sort_sorted. Qed.

Lemma timed_merge_urls_NoDup l : NoDup (map url (merge l)).
Proof.
  unfold Timed.merge.
  pose proof (timed_keyed_merge_list l [] timed_keyed_empty) as Hk.
  eapply Permutation_NoDup.
  - apply Permutation_map, timed_js_sort_perm.
  - rewrite timed_keys_urls by exact Hk. apply Hk.
Qed.

(** The record stored for a URL is the winner among the input records,
    and the only record of the output with that URL. *)
Lemma timed_merge_stored l u r :
  map_get u (merge_list l []) = Some r ->
  winner l u r /\
  filter (fun x => url x =? u) (merge l) = [r].
Proof.
  intros Hg. split.
  - pose proof (timed_tracks_merge l u) as Ht.
    rewrite Hg in Ht. exact Ht.
  - pose proof (timed_values_at_url u r _ (timed_keyed_merge_list l [] timed_keyed_empty) Hg) as Hv.
    apply Permutation_length_1_inv. rewrite <- Hv.
    apply filter_perm, timed_js_sort_perm.
Qed.

Lemma timed_merge_stores_input_urls l u :
  In u (map url l) ->
  exists r, map_get u (merge_list l []) = Some r.
Proof.
  intros Hin. apply in_map_iff in Hin. destruct Hin as (x & Hxu & Hx).
  pose proof (timed_tracks_merge l u) as Ht.
  destruct (map_get u (merge_list l [])) as [r|]; [now exists r|].
  exfalso. exact (Ht x Hx Hxu).
Qed.

Lemma timed_winner_unique l u r r' : winner l u r -> winner l u r' -> r = r'.
Proof.
  intros (b & a & Hl & Hu & Hb & Ha) (b' & a' & Hl' & Hu' & Hb' & Ha').
  rewrite Hl in Hl'.
  destruct (same_list_two_splits _ _ _ _ _ _ Hl') as [(_ & E & _)|[[H1 H2]|[H1 H2]]].
  - exact E.
  - specialize (Hb' r H1 Hu). specialize (Ha r' H2 Hu'). lia.
  - specialize (Hb r' H1 Hu'). specialize (Ha' r H2 Hu). lia.
Qed.

(** *** Idempotence *)

Lemma timed_merge_list_covered l m : covers m l -> merge_list l m = m.
Proof.
  induction l as [|s l IH]; intros H; [reflexivity|].
  destruct (H s (or_introl eq_refl)) as (e & He & Hle).
  change (merge_list (s :: l) m) with (merge_list l (merge_server m s)).
  assert (Hsame : merge_server m s = m).
  { unfold Timed.merge_server. rewrite He.
    now replace (time s >? time e)%Z with false by lia. }
  rewrite Hsame.
  apply IH. intros x Hx. apply H. now right.
Qed.

Lemma timed_tracks_covers l m : tracks l m -> covers m l.
Proof.
  intros Ht s Hs. specialize (Ht (url s)).
  destruct (map_get (url s) m) as [r|].
  - exists r. split; [reflexivity|]. now apply (timed_winner_max l (url s)).
  - exfalso. now apply (Ht s Hs).
Qed.

(** *** Order of the relays *)

Lemma timed_values_newest l v :
  distinct_times l ->
  (In v (map_values (merge_list l [])) <-> newest_of l v).
Proof.
  intros Hd.
  pose proof (timed_keyed_merge_list l [] timed_keyed_empty) as [Hnd Hk].
  pose proof (timed_tracks_merge l) as Ht.
  split.
  - intros Hv. apply in_map_iff in Hv. destruct Hv as ([k v'] & Hs & Hin).
    simpl in Hs. subst v'.
    pose proof (timed_In_map_get _ _ _ Hnd Hin) as Hg.
    specialize (Ht k). rewrite Hg in Ht.
    pose proof (Hk _ _ Hin) as Hu. subst k.
    split; [now apply (timed_winner_In l (url v)) | intros x Hx Hxu; now apply (timed_winner_max l (url v))].
  - intros [Hv Hmax]. specialize (Ht (url v)).
    destruct (map_get (url v) (merge_list l [])) as [r|] eqn:Hg.
    + assert (r = v) as ->.
      { pose proof (timed_winner_In _ _ _ Ht) as Hr.
        pose proof (timed_winner_max _ _ _ _ Ht Hv eq_refl) as H1.
        assert (Hu : url r = url v) by (destruct Ht as (b & a & _ & Hu & _); exact Hu).
        pose proof (Hmax r Hr Hu) as H2.
        apply Hd; auto. lia. }
      apply timed_map_get_In in Hg. apply (in_map snd) in Hg. exact Hg.
    + exfalso. now apply (Ht v Hv).
Qed.

Lemma timed_strictly_sorted l :
  distinct_times l -> NoDup l -> StronglySorted not_older l -> StronglySorted newer l.
Proof.
  intros Hd Hnd Hs. induction Hs as [|x l Hs IH Hall]; [constructor|].
  inversion Hnd as [|? ? Hx Hnd']; subst.
  constructor.
  - apply IH; [|exact Hnd']. intros a b Ha Hb. apply Hd; now right.
  - rewrite Forall_forall in *. intros y Hy. specialize (Hall y Hy).
    unfold Timed.newer, Timed.not_older in *.
    assert (time x <> time y); [|lia].
    intros E. apply Hx. rewrite (Hd x y); auto; [now left | now right].
Qed.

(** Two lists in strictly descending order with the same elements are the
    same list. *)
Lemma timed_sorted_same_elements l l' :
  StronglySorted newer l -> StronglySorted newer l' ->
  (forall x, In x l <-> In x l') -> l = l'.
Proof.
  intros Hs. revert l'. induction Hs as [|a l Hs IH Ha]; intros l' Hs' Hiff.
  - destruct l' as [|b l']; [reflexivity|]. exfalso. apply (Hiff b). now left.
  - destruct Hs' as [|b l' Hs' Hb].
    { exfalso. apply (Hiff a). now left. }
    rewrite Forall_forall in Ha, Hb. unfold Timed.newer in *.
    assert (a = b) as <-.
    { destruct (proj1 (Hiff a) (or_introl eq_refl)) as [E|Hin]; [now symmetry|].
      destruct (proj2 (Hiff b) (or_introl eq_refl)) as [E|Hin']; [exact E|].
      specialize (Ha _ Hin'). specialize (Hb _ Hin). lia. }
    f_equal. apply IH; [exact Hs'|].
    intros x. split; intros Hx.
    + destruct (proj1 (Hiff x) (or_intror Hx)) as [E|Hin]; [|exact Hin].
      subst x. specialize (Ha _ Hx). lia.
    + destruct (proj2 (Hiff x) (or_intror Hx)) as [E|Hin]; [|exact Hin].
      subst x. specialize (Hb _ Hx). lia.
Qed.

Lemma timed_merge_newest l v :
  distinct_times l ->
  (In v (merge l) <-> newest_of l v).
Proof.
  intros Hd. rewrite <- (timed_values_newest _ _ Hd).
  unfold Timed.merge. split; apply Permutation_in;
    [apply Permutation_sym|]; apply timed_js_sort_perm.
Qed.

Lemma timed_merge_strictly_sorted l :
  distinct_times l -> StronglySorted newer (merge l).
Proof.
  intros Hd. pose proof (timed_merge_sorted l) as Hs.
  pose proof (timed_merge_urls_NoDup l) as Hnd.
  apply timed_strictly_sorted.
  - intros a b Ha Hb. apply Hd.
    + now apply (timed_merge_newest l a Hd).
    + now apply (timed_merge_newest l b Hd).
  - now apply NoDup_map_inv' in Hnd.
  - exact Hs.
Qed.

Lemma timed_merge_server_newer m s u e :
  map_get u m = Some e ->
  exists e', map_get u (merge_server m s) = Some e' /\ (time e <= time e')%Z.
Proof.
  intros Hg. unfold Timed.merge_server.
  destruct (String.eqb_spec (url s) u) as [E|Hne].
  - rewrite E, Hg. destruct (time s >? time e)%Z eqn:Hgt.
    + exists s. rewrite <- E, timed_map_get_set_same. split; [reflexivity | lia].
    + exists e. split; [exact Hg | lia].
  - exists e. split; [|lia].
    destruct (map_get (url s) m) as [x|];
      [destruct (time s >? time x)%Z|];
      try exact Hg; now rewrite timed_map_get_set_other.
Qed.

Lemma timed_keyed_merge l : keyed (merge_list l []).
Proof. apply timed_keyed_merge_list, timed_keyed_empty. Qed.

Lemma timed_stored_newer l : forall m u e,
  map_get u m = Some e ->
  exists e', map_get u (merge_list l m) = Some e' /\ (time e <= time e')%Z.
Proof.
  induction l as [|s l IH]; intros m u e Hg.
  - exists e. split; [exact Hg | lia].
  - change (merge_list (s :: l) m) with (merge_list l (merge_server m s)).
    destruct (timed_merge_server_newer m s u e Hg) as (e1 & Hg1 & Hle1).
    destruct (IH _ _ _ Hg1) as (e2 & Hg2 & Hle2).
    exists e2. split; [exact Hg2 | lia].
Qed.

(** The map after a second pass over the same records is the map after
    the first. *)
Lemma timed_merge_list_twice l : merge_list (l ++ l) [] = merge_list l [].
Proof.
  unfold Timed.merge_list. rewrite fold_left_app.
  apply timed_merge_list_covered, timed_tracks_covers, timed_tracks_merge.
Qed.

(** Of two records that alone share a URL, the newer is kept, and the
    first on a tie. *)
Lemma timed_merge_pair l l1 x l2 y l3 :
  l = l1 ++ x :: l2 ++ y :: l3 ->
  url x = url y ->
  (forall z, In z (l1 ++ l2 ++ l3) -> url z <> url x) ->
  filter (fun r => url r =? url x) (merge l) = [if (time y >? time x)%Z then y else x].
Proof.
  intros Hl Hxy Hothers.
  assert (Hin : In (url x) (map url l)).
  { rewrite Hl. apply in_map, in_elt. }
  destruct (timed_merge_stores_input_urls l _ Hin) as [r Hg].
  destruct (timed_merge_stored l _ r Hg) as [Hw Hf].
  rewrite Hf. f_equal. apply (timed_winner_unique _ _ _ _ Hw).
  rewrite Hl. destruct (time y >? time x)%Z eqn:Hgt.
  + exists (l1 ++ x :: l2), l3. rewrite <- app_assoc. simpl.
    split; [reflexivity|]. split; [now symmetry|]. split.
    * intros z Hz Hzu. apply in_app_or in Hz. destruct Hz as [Hz|[<-|Hz]].
      -- exfalso. apply (Hothers z); [|exact Hzu]. apply in_or_app. now left.
      -- lia.
      -- exfalso. apply (Hothers z); [|exact Hzu].
         apply in_or_app. right. apply in_or_app. now left.
    * intros z Hz Hzu. exfalso. apply (Hothers z); [|exact Hzu].
      apply in_or_app. right. apply in_or_app. now right.
  + exists l1, (l2 ++ y :: l3).
    split; [reflexivity|]. split; [reflexivity|]. split.
    * intros z Hz Hzu. exfalso. apply (Hothers z); [|exact Hzu]. apply in_or_app. now left.
    * intros z Hz Hzu. apply in_app_or in Hz. destruct Hz as [Hz|[<-|Hz]].
      -- exfalso. apply (Hothers z); [|exact Hzu].
         apply in_or_app. right. apply in_or_app. now left.
      -- lia.
      -- exfalso. apply (Hothers z); [|exact Hzu].
         apply in_or_app. right. apply in_or_app. now right.
Qed.

(** For every URL of the input exactly one record is kept, the first of
    the newest. *)
Lemma timed_merge_winner l u :
  In u (map url l) ->
  exists before r after,
    l = before ++ r :: after /\ url r = u /\
    (forall x, In x before -> url x = u -> (time x < time r)%Z) /\
    (forall x, In x after -> url x = u -> (time x <= time r)%Z) /\
    filter (fun x => url x =? u) (merge l) = [r].
Proof.
  intros Hin. destruct (timed_merge_stores_input_urls l u Hin) as [r Hg].
  destruct (timed_merge_stored l u r Hg) as [(before & after & Hl & Hu & Hb & Ha) Hf].
  exists before, r, after. auto.
Qed.

(** *** Order of the input *)

Lemma timed_merge_records_insensitive l l' :
  distinct_times l -> Permutation l l' -> merge l = merge l'.
Proof.
  intros Hd Hc.
  assert (Hd' : distinct_times l').
  { intros a b Ha Hb. apply Hd; apply (Permutation_in _ (Permutation_sym Hc)); assumption. }
  apply timed_sorted_same_elements; try now apply timed_merge_strictly_sorted.
  intros x. rewrite (timed_merge_newest _ _ Hd), (timed_merge_newest _ _ Hd').
  unfold Timed.newest_of. split; intros [Hx Hmax]; split.
  - exact (Permutation_in _ Hc Hx).
  - intros y Hy. apply Hmax. exact (Permutation_in _ (Permutation_sym Hc) Hy).
  - exact (Permutation_in _ (Permutation_sym Hc) Hx).
  - intros y Hy. apply Hmax. exact (Permutation_in _ Hc Hy).
Qed.

Lemma timed_In_merge l r :
  In r (merge l) <-> In r (map_values (merge_list l [])).
Proof.
  unfold Timed.merge. split; apply Permutation_in;
    [apply Permutation_sym|]; apply timed_js_sort_perm.
Qed.

Lemma timed_merge_is_newest l v : In v (merge l) -> newest_of l v.
Proof.
  intros Hv. apply timed_In_merge in Hv.
  pose proof (timed_keyed_merge l) as [Hnd Hk].
  apply in_map_iff in Hv. destruct Hv as ([k v'] & Hs & Hin). simpl in Hs. subst v'.
  pose proof (timed_In_map_get _ _ _ Hnd Hin) as Hg.
  pose proof (timed_tracks_merge l k) as Ht. rewrite Hg in Ht.
  pose proof (Hk _ _ Hin) as Hu. subst k.
  split; [now apply (timed_winner_In l (url v)) |
          intros x Hx Hxu; now apply (timed_winner_max l (url v))].
Qed.

Lemma timed_newest_kept l v :
  newest_of l v ->
  exists w, In w (merge l) /\ url w = url v /\ time w = time v.
Proof.
  intros [Hv Hmax].
  pose proof (timed_tracks_merge l (url v)) as Ht.
  destruct (map_get (url v) (merge_list l [])) as [r|] eqn:Hg.
  - exists r. pose proof (timed_winner_In _ _ _ Ht) as Hr.
    pose proof (timed_winner_max _ _ _ _ Ht Hv eq_refl) as H1.
    assert (Hu : url r = url v) by (destruct Ht as (b & a & _ & Hu & _); exact Hu).
    pose proof (Hmax r Hr Hu) as H2.
    split; [|split; [exact Hu | lia]].
    apply timed_In_merge. apply timed_map_get_In in Hg. now apply (in_map snd) in Hg.
  - exfalso. now apply (Ht v Hv).
Qed.

Lemma timed_strictly_sorted_by_url out :
  ties_within_url out -> NoDup (map url out) ->
  StronglySorted not_older out -> StronglySorted newer out.
Proof.
  intros Hd Hnd Hs. induction Hs as [|x l Hs IH Hall]; [constructor|].
  simpl in Hnd. inversion Hnd as [|? ? Hx Hnd']; subst.
  constructor.
  - apply IH; [|exact Hnd']. intros a b Ha Hb. apply Hd; now right.
  - rewrite Forall_forall in *. intros y Hy. specialize (Hall y Hy).
    unfold Timed.newer, Timed.not_older in *.
    assert (time x <> time y); [|lia].
    intros E. apply Hx. rewrite (Hd x y); [now apply in_map | now left | now right | exact E].
Qed.

(** Two lists in strictly descending order that hold the same URLs at the
    same times list the URLs in the same order. *)
Lemma timed_sorted_same_urls out out' :
  StronglySorted newer out -> StronglySorted newer out' ->
  (forall a, In a out -> exists b, In b out' /\ url b = url a /\ time b = time a) ->
  (forall b, In b out' -> exists a, In a out /\ url a = url b /\ time a = time b) ->
  map url out = map url out'.
Proof.
  intros Hs. revert out'. induction Hs as [|a l Hs IH Ha]; intros l' Hs' H12 H21.
  - destruct l' as [|b l']; [reflexivity|]. exfalso.
    destruct (H21 b (or_introl eq_refl)) as (x & [] & _).
  - destruct Hs' as [|b l' Hs' Hb].
    { exfalso. destruct (H12 a (or_introl eq_refl)) as (x & [] & _). }
    rewrite Forall_forall in Ha, Hb. unfold Timed.newer in *.
    assert (Hab : url a = url b /\ time a = time b).
    { destruct (H12 a (or_introl eq_refl)) as (b0 & [<-|Hin] & Hu & Ht); [auto|].
      destruct (H21 b (or_introl eq_refl)) as (a0 & [<-|Hin'] & Hu' & Ht'); [auto|].
      specialize (Ha _ Hin'). specialize (Hb _ Hin). lia. }
    destruct Hab as [Hu Ht]. simpl. f_equal; [exact Hu|].
    apply IH; [exact Hs'| |].
    + intros x Hx. destruct (H12 x (or_intror Hx)) as (y & [<-|Hin] & Hyu & Hyt).
      * specialize (Ha _ Hx). lia.
      * now exists y.
    + intros y Hy. destruct (H21 y (or_intror Hy)) as (x & [<-|Hin] & Hxu & Hxt).
      * specialize (Hb _ Hy). lia.
      * now exists x.
Qed.

Lemma timed_newest_of_perm l l' v : Permutation l l' -> newest_of l v -> newest_of l' v.
Proof.
  intros Hc [Hx Hmax]. split.
  - exact (Permutation_in _ Hc Hx).
  - intros y Hy. apply Hmax. exact (Permutation_in _ (Permutation_sym Hc) Hy).
Qed.

Lemma timed_merge_urls_insensitive l l' :
  ties_within_url l -> Permutation l l' ->
  map url (merge l) = map url (merge l').
Proof.
  intros Hd Hc.
  assert (Hd' : ties_within_url l').
  { intros a b Ha Hb. apply Hd; apply (Permutation_in _ (Permutation_sym Hc)); assumption. }
  assert (Hsorted : forall k, ties_within_url k -> StronglySorted newer (merge k)).
  { intros k Hk. apply timed_strictly_sorted_by_url.
    - intros a b Ha Hb. apply Hk.
      + now apply (timed_merge_is_newest k a).
      + now apply (timed_merge_is_newest k b).
    - apply timed_merge_urls_NoDup.
    - apply timed_merge_sorted. }
  apply timed_sorted_same_urls; auto.
  - intros a Ha. apply timed_newest_kept.
    apply (timed_newest_of_perm l l'); [exact Hc | now apply timed_merge_is_newest].
  - intros b Hb. apply timed_newest_kept.
    apply (timed_newest_of_perm l' l); [now apply Permutation_sym | now apply timed_merge_is_newest].
Qed.

(** *** Where the stored records come from *)

Lemma timed_values_set k v m x :
  In x (map_values (map_set k v m)) -> x = v \/ In x (map_values m).
Proof.
  induction m as [|[k0 v0] m IH]; simpl.
  - intros [<-|[]]. now left.
  - destruct (k0 =? k); simpl.
    + intros [<-|H]; [now left | right; now right].
    + intros [<-|H]; [right; now left|].
      destruct (IH H) as [->|H']; [now left | right; now right].
Qed.

Lemma timed_values_merge_server m s x :
  In x (map_values (merge_server m s)) -> x = s \/ In x (map_values m).
Proof.
  unfold Timed.merge_server.
  destruct (map_get (url s) m) as [e|]; [destruct (time s >? time e)%Z|];
    try apply timed_values_set. now right.
Qed.

Lemma timed_values_merge_list l : forall m x,
  In x (map_values (merge_list l m)) -> In x l \/ In x (map_values m).
Proof.
  induction l as [|s l IH]; intros m x H; [now right|].
  change (merge_list (s :: l) m) with (merge_list l (merge_server m s)) in H.
  destruct (IH _ _ H) as [Hl|Hm]; [left; now right|].
  destruct (timed_values_merge_server _ _ _ Hm) as [->|Hm']; [left; now left | now right].
Qed.

End TimedFacts.

(** A view of the records that keeps [url] and [time] commutes with the
    merge. *)
Section TimedView.
Variables A B : Type.
Variable urlA : A -> string.
Variable timeA : A -> Z.
Variable urlB : B -> string.
Variable timeB : B -> Z.
Variable view : A -> B.
Hypothesis view_url : forall a, urlB (view a) = urlA a.
Hypothesis view_time : forall a, timeB (view a) = timeA a.

Local Abbreviation view_map := (map (fun kv : string * A => (fst kv, view (snd kv)))).

Lemma view_map_get k m :
  Timed.map_get k (view_map m) = option_map view (Timed.map_get k m).
Proof.
  induction m as [|[k0 v0] m IH]; simpl; [reflexivity|].
  destruct (k0 =? k); [reflexivity | exact IH].
Qed.

Lemma view_map_set k v m :
  Timed.map_set k (view v) (view_map m) = view_map (Timed.map_set k v m).
Proof.
  induction m as [|[k0 v0] m IH]; simpl; [reflexivity|].
  destruct (k0 =? k); simpl; [reflexivity | now rewrite IH].
Qed.

Lemma view_merge_server m s :
  Timed.merge_server urlB timeB (view_map m) (view s)
    = view_map (Timed.merge_server urlA timeA m s).
Proof.
  unfold Timed.merge_server. rewrite view_url, view_map_get.
  destruct (Timed.map_get (urlA s) m) as [e|]; simpl.
  - rewrite !view_time. destruct (timeA s >? timeA e)%Z; [apply view_map_set | reflexivity].
  - apply view_map_set.
Qed.

Lemma view_merge_list l : forall m,
  Timed.merge_list urlB timeB (map view l) (view_map m)
    = view_map (Timed.merge_list urlA timeA l m).
Proof.
  induction l as [|s l IH]; intros m; [reflexivity|].
  simpl. rewrite view_merge_server. apply IH.
Qed.

Lemma view_sort_insert x l :
  Timed.sort_insert timeB (view x) (map view l) = map view (Timed.sort_insert timeA x l).
Proof.
  induction l as [|y l IH]; simpl; [reflexivity|].
  rewrite !view_time. destruct (timeA y - timeA x >? 0)%Z; simpl; [now rewrite IH | reflexivity].
Qed.

Lemma view_sort l : Timed.sort timeB (map view l) = map view (Timed.sort timeA l).
Proof.
  induction l as [|x l IH]; simpl; [reflexivity|].
  rewrite IH. apply view_sort_insert.
Qed.

Lemma view_merge l :
  Timed.merge urlB timeB (map view l) = map view (Timed.merge urlA timeA l).
Proof.
  unfold Timed.merge. rewrite <- view_sort. f_equal.
  change (@nil (string * B)) with (view_map []).
  rewrite view_merge_list. unfold Timed.map_values. rewrite !map_map. reflexivity.
Qed.

End TimedView.

(** * Merge and sort of the parsed records *)
Section ParsedMergeFacts.
Import JSOps ParsedMerge ParsedSpec.

Local Abbreviation tmerge_server := (Timed.merge_server url time).
Local Abbreviation tmerge_list := (Timed.merge_list url time).
Local Abbreviation tsort := (Timed.sort time).
Local Abbreviation tmerge := (Timed.merge url time).

Lemma js_gt_integers a b :
  integer_time a -> integer_time b ->
  js_gt (created_at a) (created_at b) = Some (time a >? time b)%Z.
Proof. intros [x Hx] [y Hy]. unfold time. now rewrite Hx, Hy. Qed.

Lemma newest_first_integers a b :
  integer_time a -> integer_time b ->
  newest_first a b = Some (Int (time b - time a)).
Proof. intros [x Hx] [y Hy]. unfold newest_first, time. now rewrite Hx, Hy. Qed.

Lemma map_get_timed k (m : ServerMap) : map_get k m = Timed.map_get k m.
Proof. reflexivity. Qed.

Lemma map_set_timed k v (m : ServerMap) : map_set k v m = Timed.map_set k v m.
Proof. reflexivity. Qed.

Lemma merge_server_integers m s :
  Forall integer_time (map_values m) -> integer_time s ->
  merge_server m s = Some (tmerge_server m s).
Proof.
  intros Hm Hs. unfold merge_server, Timed.merge_server.
  rewrite map_get_timed, map_set_timed.
  destruct (Timed.map_get (url s) m) as [e|] eqn:Hg; [|reflexivity].
  assert (He : integer_time e).
  { rewrite Forall_forall in Hm. apply Hm.
    apply timed_map_get_In in Hg. now apply (in_map snd) in Hg. }
  rewrite (js_gt_integers s e Hs He).
  destruct (time s >? time e)%Z; reflexivity.
Qed.

Lemma integer_values_merge_list l m :
  Forall integer_time l -> Forall integer_time (map_values m) ->
  Forall integer_time (map_values (tmerge_list l m)).
Proof.
  intros Hl Hm. rewrite Forall_forall in *. intros x Hx.
  destruct (timed_values_merge_list _ url time l m x Hx); auto.
Qed.

Lemma merge_relay_integers l : forall m,
  Forall integer_time l -> Forall integer_time (map_values m) ->
  merge_relay m l = Some (tmerge_list l m).
Proof.
  induction l as [|s l IH]; intros m Hl Hm; [reflexivity|].
  inversion Hl as [|? ? Hs Hl']; subst. simpl.
  rewrite (merge_server_integers m s Hm Hs). apply IH; [exact Hl'|].
  apply (integer_values_merge_list [s] m); [now constructor | exact Hm].
Qed.

Lemma merge_results_integers results : forall m,
  Forall integer_time (concat results) -> Forall integer_time (map_values m) ->
  merge_results m results = Some (tmerge_list (concat results) m).
Proof.
  induction results as [|r results IH]; intros m Hl Hm; [reflexivity|].
  simpl in *. apply Forall_app in Hl. destruct Hl as [Hr Hrest].
  rewrite (merge_relay_integers r m Hr Hm).
  rewrite IH; [|exact Hrest|now apply integer_values_merge_list].
  unfold Timed.merge_list. now rewrite fold_left_app.
Qed.

Lemma sort_insert_integers x l :
  integer_time x -> Forall integer_time l ->
  sort_insert newest_first x l = Timed.sort_insert time x l.
Proof.
  intros Hx Hl. induction Hl as [|y l Hy Hl IH]; [reflexivity|].
  simpl. rewrite (newest_first_integers x y Hx Hy). simpl.
  destruct (time y - time x >? 0)%Z; [now rewrite IH | reflexivity].
Qed.

Lemma insertion_integers l :
  Forall integer_time l ->
  fold_right (sort_insert newest_first) [] l = tsort l.
Proof.
  induction 1 as [|x l Hx Hl IH]; [reflexivity|].
  simpl. rewrite IH. apply sort_insert_integers; [exact Hx|].
  rewrite Forall_forall in *. intros y Hy. apply Hl.
  exact (Permutation_in _ (Permutation_sym (timed_js_sort_perm _ time l)) Hy).
Qed.

Lemma array_sort_integers l :
  Forall integer_time l -> array_sort newest_first l = Some (tsort l).
Proof.
  intros Hl. unfold array_sort.
  destruct l as [|x [|y l]]; [reflexivity | reflexivity |].
  assert (Hall : forallb (fun a => forallb (fun b => is_number (newest_first a b))
                                           (x :: y :: l)) (x :: y :: l) = true).
  { rewrite Forall_forall in Hl.
    apply forallb_forall. intros a Ha. apply forallb_forall. intros b Hb.
    now rewrite (newest_first_integers a b (Hl a Ha) (Hl b Hb)). }
  rewrite Hall. now rewrite insertion_integers.
Qed.

(** On records with integer [created_at] the loop and the sort compute the
    merge by the integer key. *)
Lemma merge_integers results :
  integer_times results -> merge results = Some (tmerge (concat results)).
Proof.
  intros Hl. unfold merge.
  rewrite (merge_results_integers results [] Hl (Forall_nil _)).
  apply array_sort_integers. apply integer_values_merge_list; [exact Hl | constructor].
Qed.

Lemma integer_times_app results results' :
  integer_times results -> integer_times results' -> integer_times (results ++ results').
Proof.
  unfold integer_times. rewrite concat_app. intros H H'. apply Forall_app. now split.
Qed.

Lemma integer_times_perm results results' :
  Permutation results results' -> integer_times results -> integer_times results'.
Proof.
  unfold integer_times. intros Hp H.
  exact (Permutation_Forall (concat_perm _ _ Hp) H).
Qed.

(** C3, as the code has it: when every record carries an integer
    [created_at], the merged list is sorted by [created_at], newest first,
    records with equal [created_at] being allowed next to each other, and
    no two of its records have the same [url]. *)
Theorem merged_sorted_unique (results : list (list Announcement)) :
  integer_times results ->
  exists out,
    merge results = Some out /\
    StronglySorted not_older out /\ NoDup (map url out).
Proof.
  intros Hl. exists (tmerge (concat results)).
  split; [now apply merge_integers|]. split.
  - apply timed_merge_sorted.
  - apply timed_merge_urls_NoDup.
Qed.

Lemma relays_scenario_integer : integer_times relays_scenario.
Proof.
  unfold integer_times. simpl.
  repeat constructor; eexists; reflexivity.
Defined.

Lemma merged_sorted_unique_witness :
  exists out,
    merge relays_scenario = Some out /\
    StronglySorted not_older out /\ NoDup (map url out).
Proof. apply merged_sorted_unique. exact relays_scenario_integer. Defined.

(** The scenario of the specification. *)
Example sorted_scenario :
  sortedServers relays_scenario
    = Some ["https://url1.example"; "https://url3.example"; "https://url2.example"].
Proof. reflexivity. Qed.

(** C3 as stated fails: two servers announced in the same second are both
    kept, so the output is not strictly descending. *)
Lemma merged_not_strictly_sorted :
  merge tie_two_urls
    = Some [announcement "https://a.example" (JNum 100) "e1";
            announcement "https://b.example" (JNum 100) "e2"] /\
  ~ StronglySorted newer
      [announcement "https://a.example" (JNum 100) "e1";
       announcement "https://b.example" (JNum 100) "e2"].
Proof.
  split; [reflexivity|].
  intros H. inversion H as [|? ? _ Hall]; subst.
  inversion Hall as [|? ? Hab _]; subst. vm_compute in Hab. discriminate.
Qed.

(** Without a [created_at] the comparator of the sort yields [NaN]
    against every record with a primitive [created_at], so ECMAScript
    leaves the order of such an array to the engine. *)
Remark comparator_without_created_at (a b : Announcement) :
  created_at a = JUndefined ->
  (forall l, created_at b <> JArr l) ->
  (forall p, created_at b <> JObj p) ->
  newest_first a b = Some NaN /\ newest_first b a = Some NaN.
Proof.
  intros Ha Harr Hobj. unfold newest_first, js_sub. rewrite Ha.
  destruct (created_at b) as [ | |c|z|s|l|p] eqn:Hb;
    [auto | auto | auto | auto | | now contradiction (Harr l) | now contradiction (Hobj p)].
  unfold to_number.
  destruct (all_digits s && (1 <=? String.length s)%nat && (String.length s <=? 15)%nat);
    auto.
Qed.

End ParsedMergeFacts.

Section ParsedMergeClaims.
Import JSOps ParsedMerge ParsedSpec.

Local Abbreviation tmerge_list := (Timed.merge_list url time).
Local Abbreviation tmerge := (Timed.merge url time).

(** C4, as the code has it: when every record carries an integer
    [created_at], for every URL of the input the merge keeps exactly one
    record: every record of that URL processed before it is strictly
    older, and none processed after it is newer.  In particular, of two
    input records sharing a URL (and alone in doing so) exactly one is
    kept: the one with the strictly greater [created_at], and on a tie the
    one processed first. *)
Theorem merged_keeps_newest_first_seen (results : list (list Announcement)) :
  integer_times results ->
  exists out,
    merge results = Some out /\
    (forall u, In u (map url (concat results)) ->
       exists before r after,
         concat results = before ++ r :: after /\ url r = u /\
         (forall x, In x before -> url x = u -> (time x < time r)%Z) /\
         (forall x, In x after -> url x = u -> (time x <= time r)%Z) /\
         filter (fun x => url x =? u) out = [r]) /\
    (forall l1 x l2 y l3,
       concat results = l1 ++ x :: l2 ++ y :: l3 ->
       url x = url y ->
       (forall z, In z (l1 ++ l2 ++ l3) -> url z <> url x) ->
       filter (fun r => url r =? url x) out = [if (time y >? time x)%Z then y else x]).
Proof.
  intros Hl. exists (tmerge (concat results)).
  split; [now apply merge_integers|]. split.
  - intros u Hu. now apply timed_merge_winner.
  - intros l1 x l2 y l3 Hc Hxy Hothers. now apply (timed_merge_pair _ url time _ l1 x l2 y l3).
Qed.

Lemma tie_one_url_integer : integer_times tie_one_url.
Proof. unfold integer_times. simpl. repeat constructor; eexists; reflexivity. Defined.

Lemma merged_keeps_newest_first_seen_witness :
  exists out,
    merge tie_one_url = Some out /\
    filter (fun r => url r =? "https://a.example") out
      = [announcement "https://a.example" (JNum 100) "e1"].
Proof.
  destruct (merged_keeps_newest_first_seen tie_one_url tie_one_url_integer)
    as (out & Hout & _ & Hpair).
  exists out. split; [exact Hout|].
  apply (Hpair [] (announcement "https://a.example" (JNum 100) "e1")
               [] (announcement "https://a.example" (JNum 100) "e2") []).
  - reflexivity.
  - reflexivity.
  - intros z [].
Defined.

(** C4 as stated fails when a [created_at] is not an integer number.  Two
    strings compare by their characters: the record stamped ["4"]
    replaces the one stamped ["300"], the smaller number.  And with
    ["10"], [5], ["2"] for one URL the record kept is the one stamped
    ["2"], although [5 > "2"] holds in JavaScript for a record processed
    before it. *)
Lemma merged_keeps_older_string_time :
  merge string_times = Some [announcement "https://a.example" (JStr "4") "e2"] /\
  to_number (JStr "4") = Some (Int 4) /\
  to_number (JStr "300") = Some (Int 300) /\
  merge mixed_times = Some [announcement "https://a.example" (JStr "2") "e3"] /\
  js_gt (JNum 5) (JStr "2") = Some true.
Proof. repeat split; reflexivity. Qed.

(** C8, as the code has it: when every record carries an integer
    [created_at], merging the input followed by itself gives what merging
    the input gives. *)
Theorem merged_idempotent (results : list (list Announcement)) :
  integer_times results ->
  exists out,
    merge results = Some out /\ merge (results ++ results) = Some out.
Proof.
  intros Hl. exists (tmerge (concat results)).
  split; [now apply merge_integers|].
  rewrite (merge_integers _ (integer_times_app _ _ Hl Hl)).
  rewrite concat_app. unfold Timed.merge. now rewrite timed_merge_list_twice.
Qed.

Lemma merged_idempotent_witness :
  exists out,
    merge relays_scenario = Some out /\
    merge (relays_scenario ++ relays_scenario) = Some out.
Proof. apply merged_idempotent. exact relays_scenario_integer. Defined.

(** C8 as stated fails when a [created_at] is not an integer number: for
    one URL stamped ["10"], [5], ["2"] in turn, one pass keeps ["2"]
    (greater than ["10"] as a string) and a second pass replaces it by [5]
    (greater than ["2"] as a number). *)
Lemma merged_twice_differs :
  merge mixed_times = Some [announcement "https://a.example" (JStr "2") "e3"] /\
  merge (mixed_times ++ mixed_times)
    = Some [announcement "https://a.example" (JNum 5) "e2"].
Proof. split; reflexivity. Qed.

Lemma distinct_times_timed l : distinct_times l -> Timed.distinct_times time l.
Proof. exact (fun H => H). Qed.

(** C2, as the code has it: when every record carries an integer
    [created_at], reordering the per-relay results does not change the
    sorted URL list provided records with the same [created_at] have the
    same [url] (records sharing both included), and does not change the
    merged records either provided no two different records share a
    [created_at]. *)
Theorem merged_order_insensitive (results results' : list (list Announcement)) :
  integer_times results ->
  Permutation results results' ->
  exists out out',
    merge results = Some out /\ merge results' = Some out' /\
    (ties_within_url (concat results) -> map url out = map url out') /\
    (distinct_times (concat results) -> out = out').
Proof.
  intros Hl Hp. pose proof (concat_perm _ _ Hp) as Hc.
  exists (tmerge (concat results)), (tmerge (concat results')).
  split; [now apply merge_integers|].
  split; [apply merge_integers; now apply (integer_times_perm results)|].
  split; intros H.
  - now apply timed_merge_urls_insensitive.
  - now apply timed_merge_records_insensitive.
Qed.

Lemma merged_order_insensitive_witness :
  exists out out',
    merge tie_one_url = Some out /\ merge (rev tie_one_url) = Some out' /\
    (ties_within_url (concat tie_one_url) -> map url out = map url out') /\
    (distinct_times (concat tie_one_url) -> out = out').
Proof.
  apply merged_order_insensitive; [exact tie_one_url_integer | apply Permutation_rev].
Defined.

(** C2 as stated fails: with two servers announced in the same second,
    the order of the relays decides the order of the output. *)
Lemma merged_depends_on_relay_order :
  Permutation tie_two_urls (rev tie_two_urls) /\
  sortedServers tie_two_urls = Some ["https://a.example"; "https://b.example"] /\
  sortedServers (rev tie_two_urls) = Some ["https://b.example"; "https://a.example"].
Proof. split; [apply Permutation_rev | split; reflexivity]. Qed.

(** X18: for records with an integer [created_at], merging further records
    never removes a URL from the map and never replaces its record by an
    older one. *)
Theorem stored_announcement_only_gets_newer
        (l : list Announcement) (m : ServerMap) (u : string) (e : Announcement) :
  Forall integer_time l ->
  Forall integer_time (map_values m) ->
  map_get u m = Some e ->
  exists m' e',
    merge_relay m l = Some m' /\ map_get u m' = Some e' /\ (time e <= time e')%Z.
Proof.
  intros Hl Hm Hg. exists (tmerge_list l m).
  destruct (timed_stored_newer _ url time l m u e Hg) as (e' & Hg' & Hle).
  exists e'. split; [now apply merge_relay_integers | now split].
Qed.

Lemma stored_announcement_only_gets_newer_witness :
  exists m' e',
    merge_relay [("https://a.example", announcement "https://a.example" (JNum 100) "e1")]
                [announcement "https://a.example" (JNum 50) "old";
                 announcement "https://a.example" (JNum 200) "new"] = Some m' /\
    map_get "https://a.example" m' = Some e' /\
    (time (announcement "https://a.example" (JNum 100) "e1") <= time e')%Z.
Proof.
  apply stored_announcement_only_gets_newer.
  - repeat constructor; eexists; reflexivity.
  - repeat constructor; eexists; reflexivity.
  - reflexivity.
Defined.

(** *** The typed merge is the merge of parsed records with integer
    [created_at] *)

Lemma typed_sort_insert x l :
  Merge.sort_insert Merge.newest_first x l = Timed.sort_insert Merge.created_at x l.
Proof.
  induction l as [|y l IH]; [reflexivity|].
  simpl. unfold Merge.newest_first at 1. now rewrite IH.
Qed.

Lemma typed_sort l :
  Merge.js_sort Merge.newest_first l = Timed.sort Merge.created_at l.
Proof.
  induction l as [|x l IH]; [reflexivity|].
  simpl. now rewrite IH, typed_sort_insert.
Qed.

Lemma typed_merge_timed (results : list (list Merge.ServerRecord)) :
  Merge.merge results = Timed.merge Merge.url Merge.created_at (concat results).
Proof.
  unfold Merge.merge, Timed.merge. rewrite merge_results_concat, typed_sort. reflexivity.
Qed.

Lemma concat_map_map {A B} (f : A -> B) (ls : list (list A)) :
  concat (map (map f) ls) = map f (concat ls).
Proof.
  induction ls as [|l ls IH]; simpl; [reflexivity|]. now rewrite map_app, IH.
Qed.

(** On records with integer [created_at], the URL list the code returns
    is the one the typed merge gives on their typed views. *)
Lemma sortedServers_typed (results : list (list Announcement)) :
  integer_times results ->
  sortedServers results = Some (Merge.sortedServers (map (map typed_view) results)).
Proof.
  intros Hl. unfold sortedServers, Merge.sortedServers.
  rewrite (merge_integers results Hl), typed_merge_timed, concat_map_map. simpl.
  rewrite (view_merge _ _ url time Merge.url Merge.created_at typed_view)
    by reflexivity.
  rewrite map_map. reflexivity.
Qed.

End ParsedMergeClaims.

(** ** The records that reach the merge are parsed records *)
Section ParsedRecords.
Import Parser EventSpec RelayClient ParsedMerge.

(** Every record the parser returns is the object of an [Announcement]:
    its [url] is a string. *)
Lemma parsed_is_announcement (event v : JSValue) :
  parseBlossomServer event = Normal v -> v <> JNull -> exists r, v = to_js r.
Proof.
  unfold parseBlossomServer, parseBlossomServer_try.
  intros H Hnn.
  assert (Hnull : forall P : Prop, Normal JNull = Normal v -> P).
  { intros P E. injection E as <-. now contradiction Hnn. }
  destruct (get_field event "tags") as [tags|e] eqn:Htags; simpl in H; [|now apply Hnull].
  destruct (call_find tags (tag_is "d")) as [dTag|e]; simpl in H; [|now apply Hnull].
  destruct (truthy dTag); simpl in H; [|now apply Hnull].
  destruct (get_index dTag 1) as [d1|e]; simpl in H; [|now apply Hnull].
  destruct (truthy d1); simpl in H; [|now apply Hnull].
  destruct d1 as [ | | | |s| | ]; simpl in H; try now apply Hnull.
  destruct (String.prefix "https://" s); simpl in H; [|now apply Hnull].
  destruct (call_find tags (tag_is "name")) as [nameTag|e]; simpl in H; [|now apply Hnull].
  destruct (call_find tags (tag_is "description")) as [descTag|e];
    simpl in H; [|now apply Hnull].
  destruct (if truthy nameTag then get_index nameTag 1 else Normal JNull) as [n|e];
    simpl in H; [|now apply Hnull].
  destruct (if truthy descTag then get_index descTag 1 else Normal JNull) as [d|e];
    simpl in H; [|now apply Hnull].
  destruct (get_field event "pubkey") as [pk|e]; simpl in H; [|now apply Hnull].
  destruct (get_field event "created_at") as [t|e]; simpl in H; [|now apply Hnull].
  destruct (get_field event "id") as [i|e]; simpl in H; [|now apply Hnull].
  injection H as <-. now exists (mkAnnouncement s n d pk t i).
Qed.

(** What the merge reads from a record. *)
Lemma to_js_fields (r : Announcement) :
  get_field (to_js r) "url" = Normal (JStr (url r)) /\
  get_field (to_js r) "created_at" = Normal (created_at r) /\
  truthy (to_js r) = true.
Proof. repeat split; reflexivity. Qed.

(** Every element a relay query resolves with is such a record. *)
Lemma accumulated_are_announcements (subId : string) (events : list WsEvent) :
  Forall (fun v => exists r, v = to_js r) (servers (queryRelay subId events)).
Proof.
  induction events as [|e events IH] using rev_ind.
  - constructor.
  - rewrite queryRelay_snoc.
    destruct (servers_dispatch subId e (queryRelay subId events))
      as [E|(ev & v & _ & Hp & Ht & E)]; rewrite E; [exact IH|].
    apply Forall_app. split; [exact IH|]. constructor; [|constructor].
    apply (parsed_is_announcement ev v Hp). intros ->. discriminate.
Qed.

End ParsedRecords.
